(** * DicomConformanceStatement.py: the generator of Orthanc's DICOM
      conformance statement

    A shallow embedding of [OrthancServer/Resources/DicomConformanceStatement.py]
    and the properties of its stages: the reading of the DCMTK version,
    the selection of [dcuid.h] in the DCMTK archive, the extraction and
    classification of the Storage SOP class UIDs, the loading of the
    transfer syntaxes and the writing of the rendered template. *)

From stdpp Require Import gmap strings list.
From Stdlib Require Import Ascii Strings.Byte Sorted Permutation Lia.

Local Open Scope list_scope.

(** ** Python values *)

(** A Python [str] is a sequence of characters, a [bytes] object a sequence
    of bytes. *)
Abbreviation str := (list ascii).
Abbreviation bytes := (list byte).

Definition lit (s : string) : str := String.list_ascii_of_string s.

Definition dquote : ascii := "034"%char.
Definition newline : ascii := "010"%char.
Definition space : ascii := " "%char.

(** The exceptions the script can raise. *)
Inductive exn : Type :=
| AssertionError
| UnicodeDecodeError
| FileNotFoundError
| KeyError
| HTTPError
| ReadError
| JSONDecodeError
| RenderError.

Inductive result (A : Type) : Type :=
| Ok (a : A)
| Raise (e : exn).
Arguments Ok {A} a.
Arguments Raise {A} e.

Definition bind {A B : Type} (r : result A) (k : A -> result B) : result B :=
  match r with
  | Ok a => k a
  | Raise e => Raise e
  end.

Notation "'try' x <- r ; k" := (bind r (fun x => k))
  (at level 10, x name, r at level 100, k at level 200).

(** ** Strings *)

(** [s.startswith(p)] and [s.endswith(p)] *)
Definition startswith (s p : str) : bool := bool_decide (p `prefix_of` s).
Definition endswith (s p : str) : bool := bool_decide (p `suffix_of` s).

(** [s.ljust(width)]: [s] followed by spaces up to [width] characters, [s]
    itself when it is that long already. *)
Definition ljust (s : str) (width : nat) : str :=
  s ++ replicate (width - length s) space.

(** The order of [str]: lexicographic on the code points. *)
Fixpoint str_leb (a b : str) : bool :=
  match a, b with
  | [], _ => true
  | _ :: _, [] => false
  | x :: a', y :: b' =>
      if nat_of_ascii x <? nat_of_ascii y then true
      else if nat_of_ascii y <? nat_of_ascii x then false
      else str_leb a' b'
  end.

(** [b.decode('ascii')] *)
Definition is_ascii (b : byte) : bool := Byte.to_nat b <? 128.

Definition decode (l : bytes) : result str :=
  if forallb is_ascii l then Ok (map ascii_of_byte l)
  else Raise UnicodeDecodeError.

(** ** Lists *)

(** [sorted(l, key = ...)] with a [str] key: a stable sort.  An element is
    put before the first element of the sorted rest whose key is not
    smaller, so elements with equal keys keep their order. *)
Section Sorted.
Context {A : Type} (key : A -> str).

Fixpoint insort (x : A) (l : list A) : list A :=
  match l with
  | [] => [x]
  | y :: l' =>
      if str_leb (key x) (key y) then x :: y :: l' else y :: insort x l'
  end.

Definition sorted (l : list A) : list A := foldr insort [] l.
End Sorted.

(** [for x in l: st = body(st, x)], where the body can raise. *)
Fixpoint for_each {S A : Type} (body : S -> A -> result S) (l : list A)
  (st : S) : result S :=
  match l with
  | [] => Ok st
  | x :: l' => try st' <- body st x; for_each body l' st'
  end.

(** ** The fragment of [re] the script uses

    Both patterns of the script are concatenations of literal characters,
    character sets, capturing parentheses and repetitions of one character
    set.  [x+] is [x] followed by [x*], and [x+?] is [x] followed by [x*?]. *)
Module Re.

Inductive greed : Type := Greedy | Lazy.

Inductive item : Type :=
| Lit (c : ascii)
| Set_ (cls : ascii -> bool)
| Star (g : greed) (cls : ascii -> bool)
| Paren.

Definition pattern : Type := list item.

Definition text (s : string) : pattern := map Lit (lit s).
Definition plus (g : greed) (cls : ascii -> bool) : pattern :=
  [Set_ cls; Star g cls].
Definition group (p : pattern) : pattern := [Paren] ++ p ++ [Paren].

(** [.] without DOTALL: any character but the line feed. *)
Definition dot (c : ascii) : bool := negb (Ascii.eqb c newline).

(** [\s] of a [str] pattern on ASCII text: tab, line feed, vertical tab,
    form feed, carriage return, the four separators 0x1c-0x1f and the
    space. *)
Definition whitespace (c : ascii) : bool :=
  let n := nat_of_ascii c in
  ((9 <=? n) && (n <=? 13)) || ((28 <=? n) && (n <=? 32)).

(** [[0-9.]] *)
Definition digit_or_dot (c : ascii) : bool :=
  let n := nat_of_ascii c in
  ((48 <=? n) && (n <=? 57)) || (n =? 46).

(** The backtracking matcher.  [exec p pos s m] matches [p] against [s],
    which starts at offset [pos] of the subject; [m] holds the offsets at
    which the parentheses met so far were crossed.  The alternatives of a
    repetition are tried in the order of the [re] module: a greedy one
    takes one more character first, a lazy one tries the rest of the
    pattern first. *)
Fixpoint exec (p : pattern) (pos : nat) (s : str) (m : list nat)
  {struct p} : option (list nat) :=
  match p with
  | [] => Some m
  | Lit c :: p' =>
      match s with
      | a :: s' => if Ascii.eqb a c then exec p' (S pos) s' m else None
      | [] => None
      end
  | Set_ cls :: p' =>
      match s with
      | a :: s' => if cls a then exec p' (S pos) s' m else None
      | [] => None
      end
  | Paren :: p' => exec p' pos s (m ++ [pos])
  | Star Greedy cls :: p' =>
      (fix more (pos : nat) (s : str) {struct s} : option (list nat) :=
         match s with
         | a :: s' =>
             if cls a then
               match more (S pos) s' with
               | Some r => Some r
               | None => exec p' pos s m
               end
             else exec p' pos s m
         | [] => exec p' pos s m
         end) pos s
  | Star Lazy cls :: p' =>
      (fix more (pos : nat) (s : str) {struct s} : option (list nat) :=
         match exec p' pos s m with
         | Some r => Some r
         | None =>
             match s with
             | a :: s' => if cls a then more (S pos) s' else None
             | [] => None
             end
         end) pos s
  end.

(** A match object: the subject from the start of the match, and the
    offsets of the parentheses. *)
Record match_object : Type := { subject : str; marks : list nat }.

(** [re.match]: the pattern is tried at the start of the subject only. *)
Definition match_ (p : pattern) (s : str) : option match_object :=
  match exec p 0 s [] with
  | Some m => Some {| subject := s; marks := m |}
  | None => None
  end.

(** [re.search]: the pattern is tried at every offset from the left, the
    end of the subject included; the first success is returned. *)
Fixpoint search (p : pattern) (s : str) : option match_object :=
  match match_ p s with
  | Some r => Some r
  | None =>
      match s with
      | [] => None
      | _ :: s' => search p s'
      end
  end.

(** [r.group(k)] for [k >= 1]. *)
Definition group_ (k : nat) (r : match_object) : str :=
  let b := nth (2 * k - 2) (marks r) 0 in
  let e := nth (2 * k - 1) (marks r) 0 in
  take (e - b) (drop b (subject r)).

(** Every match of the pattern in the subject, one per offset at which
    the pattern matches, from the left. *)
Fixpoint matches (p : pattern) (s : str) : list match_object :=
  let rest := match s with [] => [] | _ :: s' => matches p s' end in
  match match_ p s with
  | Some r => r :: rest
  | None => rest
  end.

End Re.

(** ** Reading the version of DCMTK (lines 41-44) *)

(** [set\(DCMTK_STATIC_VERSION "([0-9.]+)" CACHE STRING] *)
Definition version_re : Re.pattern :=
  Re.text "set(DCMTK_STATIC_VERSION " ++ [Re.Lit dquote]
  ++ Re.group (Re.plus Re.Greedy Re.digit_or_dot)
  ++ [Re.Lit dquote] ++ Re.text " CACHE STRING".

(** [r = re.search(...); assert(r != None); version = r.group(1)] *)
Definition read_version (cmake : str) : result str :=
  match Re.search version_re cmake with
  | None => Raise AssertionError
  | Some r => Ok (Re.group_ 1 r)
  end.

Definition download_url (version : str) : str :=
  lit "https://orthanc.uclouvain.be/downloads/third-party-downloads/dcmtk-"
  ++ version ++ lit ".tar.gz".

(** ** Selecting [dcuid.h] in the archive (lines 49-56) *)
Module Tar.

(** A member of the archive: its path, and the outcome of
    [tar.extractfile] on it.  The documentation of [tarfile] has: if the
    member is a regular file or a link, a reader of its content is
    returned; for all other existing members (a directory, a device, a
    FIFO), [None] is returned.  For a link whose target is not in the
    archive the call raises [KeyError]. *)
Record TarInfo : Type := { name : str; extractfile : result (option bytes) }.

End Tar.

Definition dcuid_suffix : str := lit "dcmdata/include/dcmtk/dcmdata/dcuid.h".

(** [f.readlines()] on a binary file: the content cut after every line
    feed. *)
Fixpoint readlines_from (line : bytes) (b : bytes) : list bytes :=
  match b with
  | [] => match line with [] => [] | _ => [line] end
  | c :: b' =>
      if Byte.eqb c x0a then (line ++ [c]) :: readlines_from [] b'
      else readlines_from (line ++ [c]) b'
  end.

Definition readlines (b : bytes) : list bytes := readlines_from [] b.

(** The loop over [tar.getmembers()]: [tar.extractfile] is called on every
    member whose path ends with the path of [dcuid.h], and an exception of
    that call ends the loop. *)
Definition find_dcuid (members : list Tar.TarInfo) : result (option bytes) :=
  for_each (fun dcuid i =>
              if endswith (Tar.name i) dcuid_suffix then Tar.extractfile i
              else Ok dcuid)
           members None.

(** [assert(dcuid != None); dcmtk = dcuid.readlines()] *)
Definition read_dcuid (members : list Tar.TarInfo) : result (list bytes) :=
  try dcuid <- find_dcuid members;
  match dcuid with
  | None => Raise AssertionError
  | Some f => Ok (readlines f)
  end.

(** ** The index of the Store SCP UIDs (lines 59-78) *)

(** The dictionaries [{'name' : ..., 'uid' : ...}]. *)
Record entry : Type := { name : str; uid : str }.

Definition set_name (n : str) (e : entry) : entry :=
  {| name := n; uid := uid e |}.

(** [#define UID_(.+?Storage)\s*"(.+?)"] *)
Definition uid_re : Re.pattern :=
  Re.text "#define UID_"
  ++ Re.group (Re.plus Re.Lazy Re.dot ++ Re.text "Storage")
  ++ [Re.Star Re.Greedy Re.whitespace; Re.Lit dquote]
  ++ Re.group (Re.plus Re.Lazy Re.dot)
  ++ [Re.Lit dquote].

(** The body of the loop over the lines of [dcuid.h]; the state is
    [(all_store_scp, longest)]. *)
Definition scan_line (st : list entry * nat) (l : bytes)
  : result (list entry * nat) :=
  let '(all_store_scp, longest) := st in
  try line <- decode l;
  match Re.match_ uid_re line with
  | Some m =>
      Ok (all_store_scp ++ [{| name := Re.group_ 1 m; uid := Re.group_ 2 m |}],
          max longest (length (Re.group_ 1 m)))
  | None => Ok (all_store_scp, longest)
  end.

(** [for i in range(len(l)): l[i]['name'] = l[i]['name'].ljust(longest)] *)
Definition pad_names (longest : nat) (l : list entry) : list entry :=
  foldl (fun l i => alter (fun e => set_name (ljust (name e) longest) e) i l)
        l (seq 0 (length l)).

Definition is_draft (e : entry) : bool := startswith (name e) (lit "DRAFT").
Definition is_retired (e : entry) : bool := startswith (name e) (lit "RETIRED").
Definition is_current (e : entry) : bool :=
  negb (startswith (name e) (lit "DRAFT"))
  && negb (startswith (name e) (lit "RETIRED")).

Record store_scp_index : Type := {
  store_scp : list entry;
  retired_store_scp : list entry;
  draft_store_scp : list entry
}.

Definition classify (all_store_scp : list entry) : store_scp_index :=
  {| store_scp := List.filter is_current all_store_scp;
     retired_store_scp := List.filter is_retired all_store_scp;
     draft_store_scp := List.filter is_draft all_store_scp |}.

Definition index_store_scp (dcmtk : list bytes) : result store_scp_index :=
  try st <- for_each scan_line dcmtk ([], 0);
  let '(all_store_scp, longest) := st in
  let all_store_scp := sorted name all_store_scp in
  let all_store_scp := pad_names longest all_store_scp in
  Ok (classify all_store_scp).

(** ** The transfer syntaxes (lines 81-98) *)

(** A record of [DicomTransferSyntaxes.json], of which the script reads
    the fields ['Value'] and ['UID']. *)
Record transfer_syntax : Type := { Value : str; UID : str }.

(** ['%sTransferSyntax' % a[i]['Value']] and [a[i]['UID']] *)
Definition make_item (r : transfer_syntax) : entry :=
  {| name := Value r ++ lit "TransferSyntax"; uid := UID r |}.

(** The loop [for i in range(len(a))]; the state is
    [(transfer_syntaxes, longest)]. *)
Definition collect_transfer_syntaxes (a : list transfer_syntax)
  : list entry * nat :=
  foldl (fun st i =>
           match a !! i with
           | Some r =>
               let item := make_item r in
               (st.1 ++ [item], max st.2 (length (name item)))
           | None => st
           end)
        ([], 0) (seq 0 (length a)).

Definition load_transfer_syntaxes (a : list transfer_syntax) : list entry :=
  let '(transfer_syntaxes, longest) := collect_transfer_syntaxes a in
  let transfer_syntaxes := sorted uid transfer_syntaxes in
  pad_names longest transfer_syntaxes.

(** ** Writing the conformance statement (lines 101-109) *)

(** The paths of the files, from the root of the repository ([BASE]). *)
Definition template_path : string :=
  "OrthancServer/Resources/DicomConformanceStatement.mustache".
Definition output_path : string :=
  "OrthancServer/Resources/DicomConformanceStatement.txt".
Definition cmake_path : string :=
  "OrthancFramework/Resources/CMake/OrthancFrameworkParameters.cmake".
Definition json_path : string :=
  "OrthancFramework/Resources/CodeGeneration/DicomTransferSyntaxes.json".

(** [open(path, 'r')] followed by [f.read()] *)
Definition read_file (fs : gmap string str) (path : string) : result str :=
  match fs !! path with
  | Some text => Ok text
  | None => Raise FileNotFoundError
  end.

(** The dictionary given to [pystache.render]. *)
Definition make_context (idx : store_scp_index) (transfer_syntaxes : list entry)
  : gmap string (list entry) :=
  <["store_scp" := store_scp idx]>
    (<["draft_store_scp" := draft_store_scp idx]>
       (<["retired_store_scp" := retired_store_scp idx]>
          (<["transfer_syntaxes" := transfer_syntaxes]> ∅))).

Section Render.
(** [pystache.render], which is not part of the script: any function of
    the template and the dictionary that gives the text or raises. *)
Variable render : str -> gmap string (list entry) -> result str.

(** The files are a map from paths to contents.  The template is opened
    first; opening the output file with mode ['w'] creates it or empties
    it; then the template is read and rendered, and the text is written.
    An exception leaves the files as they are at that point. *)
Definition write_statement (context : gmap string (list entry))
  (fs : gmap string str) : gmap string str * result () :=
  match fs !! template_path with
  | None => (fs, Raise FileNotFoundError)
  | Some _ =>
      let fs := <[output_path := []]> fs in
      let template := default [] (fs !! template_path) in
      match render template context with
      | Ok text => (<[output_path := text]> fs, Ok ())
      | Raise e => (fs, Raise e)
      end
  end.
End Render.

(** ** The script *)

Section Script.
(** The libraries the script calls, which are not part of it:
    [requests.get] followed by [raise_for_status], which gives the body of
    the response; [tarfile.open] followed by [getmembers]; [json.loads];
    [pystache.render]. *)
Variable get : str -> result bytes.
Variable getmembers : bytes -> result (list Tar.TarInfo).
Variable loads : str -> result (list transfer_syntax).
Variable render : str -> gmap string (list entry) -> result str.

(** What is computed before the output file is opened. *)
Definition prepare (fs : gmap string str) : result (gmap string (list entry)) :=
  try cmake <- read_file fs cmake_path;
  try version <- read_version cmake;
  try content <- get (download_url version);
  try members <- getmembers content;
  try dcmtk <- read_dcuid members;
  try idx <- index_store_scp dcmtk;
  try json <- read_file fs json_path;
  try a <- loads json;
  Ok (make_context idx (load_transfer_syntaxes a)).

Definition script (fs : gmap string str) : gmap string str * result () :=
  match prepare fs with
  | Ok context => write_statement render context fs
  | Raise e => (fs, Raise e)
  end.
End Script.

(** ** What the script computes, stated on the data *)

(** The entry a line of text gives, if it matches the pattern. *)
Definition uid_match (line : str) : option entry :=
  match Re.match_ uid_re line with
  | Some m => Some {| name := Re.group_ 1 m; uid := Re.group_ 2 m |}
  | None => None
  end.

Definition decodable (l : bytes) : Prop := forallb is_ascii l = true.

Definition text_of (l : bytes) : str := map ascii_of_byte l.

(** The matched (name, uid) pairs of a header, in the order of the lines. *)
Definition matched (dcmtk : list bytes) : list entry :=
  omap (fun l => uid_match (text_of l)) dcmtk.

(** The greatest length of a name of the collection, 0 when it is empty. *)
Definition longest_name (l : list entry) : nat :=
  max_list (map (fun e => length (name e)) l).

(** An entry with its name padded to a width. *)
Definition pad (width : nat) (e : entry) : entry :=
  set_name (ljust (name e) width) e.

(** The order of the sort keys, and the elements of a given key. *)
Definition str_le (a b : str) : Prop := str_leb a b = true.

Definition key_le {A : Type} (key : A -> str) (x y : A) : Prop :=
  str_le (key x) (key y).

Definition has_key {A : Type} (key : A -> str) (k : str) (x : A) : bool :=
  bool_decide (key x = k).

(** The three lists of an index, one after the other. *)
Definition entries (idx : store_scp_index) : list entry :=
  store_scp idx ++ draft_store_scp idx ++ retired_store_scp idx.

(** ** Statements of the specification, and sample inputs *)

Definition blit (s : string) : bytes := String.list_byte_of_string s.

(** The text [set(DCMTK_STATIC_VERSION "v" CACHE STRING] that declares the
    version [v], and the line of the CMake file that holds it. *)
Definition declaration (v : str) : str :=
  lit "set(DCMTK_STATIC_VERSION " ++ [dquote] ++ v ++ [dquote]
  ++ lit " CACHE STRING".

Definition cmake_decl (v : string) : str :=
  declaration (lit v) ++ lit " " ++ [dquote; dquote] ++ lit ")" ++ [newline].

(** The version is read when the pattern matches exactly once, and the
    reading fails when it matches nowhere or more than once. *)
Definition single_or_error (cmake : str) : Prop :=
  match Re.matches version_re cmake with
  | [r] => read_version cmake = Ok (Re.group_ 1 r)
  | _ => exists e, read_version cmake = Raise e
  end.

Definition two_declarations : str :=
  lit "# DCMTK" ++ [newline] ++ cmake_decl "3.6.0" ++ cmake_decl "3.6.9".

(** The line [#define UID_n "u"] of [dcuid.h]. *)
Definition define (n u : string) : bytes :=
  blit "#define UID_" ++ blit n ++ blit " "
  ++ [x22] ++ blit u ++ [x22; x0a].

Definition ent (n u : string) : entry := {| name := lit n; uid := lit u |}.

Definition sample_header : list bytes :=
  [ blit "/* dcuid.h */" ++ [x0a];
    define "SecondaryCaptureImageStorage" "1.2.840.10008.5.1.4.1.1.7";
    define "RETIRED_NuclearMedicineImageStorage" "1.2.840.10008.5.1.4.1.1.5";
    define "DRAFT_RTBeamsDeliveryInstructionStorage" "1.2.840.10008.5.1.4.34.1";
    define "CTImageStorage" "1.2.840.10008.5.1.4.1.1.2";
    define "FINDPatientRootQueryRetrieveInformationModel" "1.2.840.10008.5.1.4.1.2.1.1" ].

(** Every name of the index is a matched name preceded by spaces, and has
    the length of the longest matched name. *)
Definition left_padded (dcmtk : list bytes) (idx : store_scp_index) : Prop :=
  forall o, In o (entries idx) ->
    exists e k, In e (matched dcmtk) /\ uid o = uid e
                /\ name o = replicate k space ++ name e
                /\ length (name o) = longest_name (matched dcmtk).

(** Every name of the index is a matched name followed by spaces, and has
    the length of the longest matched name. *)
Definition right_padded (dcmtk : list bytes) (idx : store_scp_index) : Prop :=
  forall o, In o (entries idx) ->
    exists e k, In e (matched dcmtk) /\ uid o = uid e
                /\ name o = name e ++ replicate k space
                /\ length (name o) = longest_name (matched dcmtk).

Definition two_names : list bytes :=
  [ define "CTImageStorage" "1.2.840.10008.5.1.4.1.1.2";
    define "EnhancedCTImageStorage" "1.2.840.10008.5.1.4.1.1.2.1" ].

(** The members of the archive whose path ends with the path of
    [dcuid.h], in the order of the archive. *)
Definition dcuid_members (members : list Tar.TarInfo) : list Tar.TarInfo :=
  List.filter (fun i => endswith (Tar.name i) dcuid_suffix) members.

(** The first exception that [tar.extractfile] raises on the members of a
    list, if it raises on one. *)
Definition first_raise (l : list Tar.TarInfo) : option exn :=
  head (omap (fun i => match Tar.extractfile i with
                       | Raise e => Some e
                       | Ok _ => None
                       end) l).

(** The content of the last member that matches is handed on, and the
    run fails when no member matches. *)
Definition last_content_handed (members : list Tar.TarInfo) : Prop :=
  match last (dcuid_members members) with
  | Some i =>
      exists f, Tar.extractfile i = Ok (Some f)
                /\ read_dcuid members = Ok (readlines f)
  | None => exists e, read_dcuid members = Raise e
  end.

(** An archive with two members whose paths end with the path of
    [dcuid.h]: a file, then a directory. *)
Definition file_then_directory : list Tar.TarInfo :=
  [ {| Tar.name := lit "dcmtk-3.6.9/dcmdata/include/dcmtk/dcmdata/dcuid.h";
       Tar.extractfile :=
         Ok (Some (define "CTImageStorage" "1.2.840.10008.5.1.4.1.1.2")) |};
    {| Tar.name := lit "dcmtk-3.6.9/old/dcmdata/include/dcmtk/dcmdata/dcuid.h";
       Tar.extractfile := Ok None |} ].

(** An archive with two members whose paths end with the path of
    [dcuid.h]: a link whose target is not in the archive, then a file. *)
Definition link_then_file : list Tar.TarInfo :=
  [ {| Tar.name := lit "dcmtk-3.6.9/old/dcmdata/include/dcmtk/dcmdata/dcuid.h";
       Tar.extractfile := Raise KeyError |};
    {| Tar.name := lit "dcmtk-3.6.9/dcmdata/include/dcmtk/dcmdata/dcuid.h";
       Tar.extractfile :=
         Ok (Some (define "CTImageStorage" "1.2.840.10008.5.1.4.1.1.2")) |} ].

(** An archive with two files whose paths end with the path of [dcuid.h]. *)
Definition two_files : list Tar.TarInfo :=
  [ {| Tar.name := lit "dcmtk-3.6.9/dcmdata/include/dcmtk/dcmdata/dcuid.h";
       Tar.extractfile :=
         Ok (Some (define "CTImageStorage" "1.2.840.10008.5.1.4.1.1.2")) |};
    {| Tar.name := lit "dcmtk-3.6.9/README";
       Tar.extractfile := Ok (Some (blit "DCMTK")) |};
    {| Tar.name := lit "dcmtk-3.6.9/old/dcmdata/include/dcmtk/dcmdata/dcuid.h";
       Tar.extractfile :=
         Ok (Some (define "MRImageStorage" "1.2.840.10008.5.1.4.1.1.4")) |} ].


(** [pystache.render] on a template that it rejects, such as one whose
    section end tag does not name the open section. *)
Definition raising_render (template : str) (context : gmap string (list entry))
  : result str :=
  Raise RenderError.

Definition files_with_old_statement : gmap string str :=
  <[template_path := lit "{{#store_scp}}{{name}} {{uid}}{{/draft_store_scp}}"]>
    (<[output_path := lit "the statement of the last run"]> ∅).

(** A comment line of [dcuid.h] with a byte that is not ASCII (an e with
    an acute accent in Latin-1). *)
Definition latin1_comment : bytes := blit "// caf" ++ [xe9; x0a].

Definition same_width : list entry :=
  [ ent "CTImageStorage" "1.2.840.10008.5.1.4.1.1.2";
    ent "MRImageStorage" "1.2.840.10008.5.1.4.1.1.4" ].

(** The sample header with its lines in the opposite order. *)
Definition sample_header_shuffled : list bytes := rev sample_header.

Definition sample_syntaxes : list transfer_syntax :=
  [ {| Value := lit "ImplicitVRLittleEndian"; UID := lit "1.2.840.10008.1.2" |};
    {| Value := lit "JPEGProcess1"; UID := lit "1.2.840.10008.1.2.4.50" |};
    {| Value := lit "ExplicitVRLittleEndian"; UID := lit "1.2.840.10008.1.2.1" |} ].

Definition sample_syntaxes_shuffled : list transfer_syntax := rev sample_syntaxes.

(** A string without control characters: every code is 32 or more. *)
Definition printable (s : str) : Prop :=
  Forall (fun c => 32 <= nat_of_ascii c) s.

(** Libraries that answer nothing: a network that fails, an archive that
    cannot be read, a JSON text that cannot be parsed. *)
Definition no_network (url : str) : result bytes := Raise HTTPError.
Definition no_archive (content : bytes) : result (list Tar.TarInfo) :=
  Raise ReadError.
Definition no_json (text : str) : result (list transfer_syntax) :=
  Raise JSONDecodeError.

Definition files_without_declaration : gmap string str :=
  <[cmake_path := lit "# no version of DCMTK here"]> files_with_old_statement.

(** * Properties *)

(** ** The order of strings *)

Lemma str_leb_refl (a : str) : str_leb a a = true.
Proof.
  induction a as [|x a IH]; simpl; [reflexivity|].
  rewrite Nat.ltb_irrefl. exact IH.
Qed.

Lemma str_leb_total (a b : str) : str_leb a b = true \/ str_leb b a = true.
Proof.
  revert b. induction a as [|x a IH]; intros [|y b]; simpl; auto.
  destruct (Nat.ltb_spec (nat_of_ascii x) (nat_of_ascii y)); [auto|].
  destruct (Nat.ltb_spec (nat_of_ascii y) (nat_of_ascii x)); [auto|].
  apply IH.
Qed.

Lemma str_leb_trans (a b c : str) :
  str_leb a b = true -> str_leb b c = true -> str_leb a c = true.
Proof.
  revert b c. induction a as [|x a IH]; intros [|y b] [|z c]; simpl; try easy.
  destruct (Nat.ltb_spec (nat_of_ascii x) (nat_of_ascii y));
    destruct (Nat.ltb_spec (nat_of_ascii y) (nat_of_ascii x));
    destruct (Nat.ltb_spec (nat_of_ascii y) (nat_of_ascii z));
    destruct (Nat.ltb_spec (nat_of_ascii z) (nat_of_ascii y));
    destruct (Nat.ltb_spec (nat_of_ascii x) (nat_of_ascii z));
    destruct (Nat.ltb_spec (nat_of_ascii z) (nat_of_ascii x));
    try easy; try lia.
  apply IH.
Qed.

Lemma str_leb_antisym (a b : str) :
  str_leb a b = true -> str_leb b a = true -> a = b.
Proof.
  revert b. induction a as [|x a IH]; intros [|y b]; simpl; try easy.
  destruct (Nat.ltb_spec (nat_of_ascii x) (nat_of_ascii y));
    destruct (Nat.ltb_spec (nat_of_ascii y) (nat_of_ascii x));
    try easy; try lia.
  intros Hab Hba. f_equal; [|auto].
  rewrite <- (ascii_nat_embedding x), <- (ascii_nat_embedding y).
  f_equal. lia.
Qed.

(** ** The stable sort *)

Section SortedFacts.
Context {A : Type} (key : A -> str).

Lemma insort_perm (x : A) (l : list A) : Permutation (x :: l) (insort key x l).
Proof.
  induction l as [|y l IH]; simpl; [reflexivity|].
  destruct (str_leb (key x) (key y)); [reflexivity|].
  rewrite perm_swap. apply perm_skip, IH.
Qed.

Lemma sorted_perm (l : list A) : Permutation l (sorted key l).
Proof.
  induction l as [|x l IH]; simpl; [reflexivity|].
  rewrite <- insort_perm. apply perm_skip, IH.
Qed.

Lemma insort_sorted (x : A) (l : list A) :
  StronglySorted (key_le key) l -> StronglySorted (key_le key) (insort key x l).
Proof.
  induction 1 as [|y l Hl IH Hy]; simpl.
  - repeat constructor.
  - destruct (str_leb (key x) (key y)) eqn:E.
    + constructor; [constructor; assumption|].
      constructor; [exact E|].
      eapply Forall_impl; [exact Hy|].
      intros z Hz. unfold key_le, str_le in *. eapply str_leb_trans; eassumption.
    + constructor; [exact IH|].
      rewrite <- (insort_perm x l). constructor; [|exact Hy].
      destruct (str_leb_total (key x) (key y)); [congruence|assumption].
Qed.

Lemma sorted_sorted (l : list A) : StronglySorted (key_le key) (sorted key l).
Proof.
  induction l as [|x l IH]; simpl; [constructor|].
  apply insort_sorted, IH.
Qed.

(** Stability: the elements with a given key keep their order. *)
Lemma insort_stable (k : str) (x : A) (l : list A) :
  List.filter (has_key key k) (insort key x l) = List.filter (has_key key k) (x :: l).
Proof.
  induction l as [|y l IH]; [reflexivity|].
  cbn [insort]. destruct (str_leb (key x) (key y)) eqn:E; [reflexivity|].
  cbn [List.filter] in *. rewrite IH.
  unfold has_key. repeat case_bool_decide; try reflexivity.
  assert (key x = key y) as Hk by congruence.
  rewrite Hk, str_leb_refl in E. discriminate.
Qed.

Lemma sorted_stable (k : str) (l : list A) :
  List.filter (has_key key k) (sorted key l) = List.filter (has_key key k) l.
Proof.
  induction l as [|x l IH]; [reflexivity|].
  cbn [sorted foldr]. rewrite insort_stable. cbn [List.filter].
  fold (sorted key l). rewrite IH. reflexivity.
Qed.
End SortedFacts.

(** ** Padding *)

Lemma ljust_length (s : str) (w : nat) : length (ljust s w) = max (length s) w.
Proof. unfold ljust. rewrite length_app, length_replicate. lia. Qed.

Lemma ljust_long (s : str) (w : nat) : w <= length s -> ljust s w = s.
Proof.
  intros H. unfold ljust. replace (w - length s) with 0 by lia.
  apply app_nil_r.
Qed.

Lemma alter_loop {A : Type} (f : A -> A) (l1 l2 : list A) :
  foldl (fun l i => alter f i l) (l1 ++ l2) (seq (length l1) (length l2))
  = l1 ++ map f l2.
Proof.
  revert l1. induction l2 as [|x l2 IH]; intros l1; [reflexivity|].
  cbn [length seq foldl map].
  replace (alter f (length l1) (l1 ++ x :: l2)) with ((l1 ++ [f x]) ++ l2).
  - replace (S (length l1)) with (length (l1 ++ [f x])).
    + rewrite IH, <- app_assoc. reflexivity.
    + rewrite length_app. simpl. lia.
  - rewrite <- app_assoc. simpl.
    rewrite alter_app_r_alt, Nat.sub_diag by lia. reflexivity.
Qed.

(** The loop that pads the names in place pads each name. *)
Lemma pad_names_map (w : nat) (l : list entry) : pad_names w l = map (pad w) l.
Proof. unfold pad_names. apply (alter_loop (pad w) [] l). Qed.

Lemma pad_uid (w : nat) (e : entry) : uid (pad w e) = uid e.
Proof. reflexivity. Qed.

Lemma pad_name (w : nat) (e : entry) :
  name (pad w e) = name e ++ replicate (w - length (name e)) space.
Proof. reflexivity. Qed.

Lemma longest_name_ge (l : list entry) (e : entry) :
  In e l -> length (name e) <= longest_name l.
Proof.
  unfold longest_name. induction l as [|x l IH]; simpl; [easy|].
  intros [->|H]; [lia|]. specialize (IH H). lia.
Qed.

Lemma longest_name_perm (l l' : list entry) :
  Permutation l l' -> longest_name l = longest_name l'.
Proof.
  unfold longest_name. induction 1; simpl; lia.
Qed.

(** ** Prefixes *)

Lemma startswith_spec (s p : str) : startswith s p = true <-> exists t, s = p ++ t.
Proof. unfold startswith. rewrite bool_decide_eq_true. reflexivity. Qed.

(** Spaces added at the end of a string do not change whether it starts
    with a prefix that has no space. *)
Lemma startswith_app_spaces (s p : str) (n : nat) :
  ~ In space p -> startswith (s ++ replicate n space) p = startswith s p.
Proof.
  intros Hp. apply eq_true_iff_eq. rewrite !startswith_spec. split.
  - revert s. induction p as [|c p IH]; intros s [t Ht]; [eauto|].
    destruct s as [|a s].
    + destruct n; [discriminate|]. simpl in Ht. injection Ht as <- _.
      exfalso. apply Hp. now left.
    + simpl in Ht. injection Ht as -> Ht.
      destruct (IH (fun H => Hp (or_intror H)) s (ex_intro _ t Ht)) as [t' ->].
      now exists t'.
  - intros [t ->]. exists (t ++ replicate n space). now rewrite app_assoc.
Qed.

Lemma no_space_DRAFT : ~ In space (lit "DRAFT").
Proof. vm_compute. intuition discriminate. Qed.

Lemma no_space_RETIRED : ~ In space (lit "RETIRED").
Proof. vm_compute. intuition discriminate. Qed.

Lemma is_draft_pad (w : nat) (e : entry) : is_draft (pad w e) = is_draft e.
Proof. apply startswith_app_spaces, no_space_DRAFT. Qed.

Lemma is_retired_pad (w : nat) (e : entry) : is_retired (pad w e) = is_retired e.
Proof. apply startswith_app_spaces, no_space_RETIRED. Qed.

Lemma is_current_pad (w : nat) (e : entry) : is_current (pad w e) = is_current e.
Proof.
  unfold is_current. fold (is_draft (pad w e)) (is_retired (pad w e)).
  now rewrite is_draft_pad, is_retired_pad.
Qed.

Lemma filter_map_commute {A : Type} (f g : A -> bool) (h : A -> A) (l : list A) :
  (forall x, f (h x) = g x) ->
  List.filter f (map h l) = map h (List.filter g l).
Proof.
  intros H. induction l as [|x l IH]; [reflexivity|].
  simpl. rewrite H. destruct (g x); simpl; now rewrite IH.
Qed.

(** A name cannot start with both prefixes. *)
Lemma draft_not_retired (e : entry) : is_draft e = true -> is_retired e = false.
Proof.
  unfold is_draft, is_retired. intros H. apply startswith_spec in H as [t Ht].
  apply not_true_is_false. intros H. apply startswith_spec in H as [t' Ht'].
  rewrite Ht in Ht'. discriminate.
Qed.

(** ** The matcher *)

Lemma search_matches (p : Re.pattern) (s : str) :
  Re.search p s = head (Re.matches p s).
Proof.
  induction s as [|c s IH]; cbn [Re.search Re.matches].
  - now destruct (Re.match_ p []).
  - destruct (Re.match_ p (c :: s)); [reflexivity | exact IH].
Qed.

Lemma search_skip (p : Re.pattern) (pre s : str) :
  (forall i, i < length pre -> Re.match_ p (drop i (pre ++ s)) = None) ->
  Re.search p (pre ++ s) = Re.search p s.
Proof.
  induction pre as [|c pre IH]; intros H; [reflexivity|].
  pose proof (H 0 ltac:(simpl; lia)) as H0. rewrite drop_0 in H0.
  cbn [app Re.search] in *. rewrite H0.
  apply IH. intros i Hi. apply (H (S i)). simpl. lia.
Qed.

Lemma exec_text (t : str) (p : Re.pattern) (pos : nat) (s : str) (m : list nat) :
  Re.exec (map Re.Lit t ++ p) pos (t ++ s) m = Re.exec p (length t + pos) s m.
Proof.
  revert pos. induction t as [|c t IH]; intros pos; [reflexivity|].
  cbn [map app Re.exec length]. rewrite Ascii.eqb_refl, IH. f_equal. lia.
Qed.

(** A greedy repetition takes all the characters of the set in front of
    it when the rest of the pattern matches after them. *)
Lemma exec_star_greedy (cls : ascii -> bool) (p : Re.pattern) (v s : str)
  (pos : nat) (m r : list nat) :
  forallb cls v = true ->
  match s with a :: _ => cls a = false | [] => True end ->
  Re.exec p (length v + pos) s m = Some r ->
  Re.exec (Re.Star Re.Greedy cls :: p) pos (v ++ s) m = Some r.
Proof.
  intros Hv Hs. revert pos. induction v as [|c v IH]; intros pos Hr.
  - cbn [app length Nat.add] in *. destruct s as [|a s]; cbn [Re.exec].
    + exact Hr.
    + rewrite Hs. exact Hr.
  - cbn [forallb] in Hv. apply andb_prop in Hv as [Hc Hv].
    specialize (IH Hv (S pos)).
    cbn [app Re.exec] in *. rewrite Hc, IH; [reflexivity|].
    rewrite <- Hr. f_equal. simpl. lia.
Qed.

Lemma exec_lit (c a : ascii) (p : Re.pattern) (pos : nat) (s : str) (m : list nat) :
  Re.exec (Re.Lit c :: p) pos (a :: s) m
  = if Ascii.eqb a c then Re.exec p (S pos) s m else None.
Proof. reflexivity. Qed.

Lemma exec_set (cls : ascii -> bool) (a : ascii) (p : Re.pattern) (pos : nat)
  (s : str) (m : list nat) :
  Re.exec (Re.Set_ cls :: p) pos (a :: s) m
  = if cls a then Re.exec p (S pos) s m else None.
Proof. reflexivity. Qed.

Lemma exec_paren (p : Re.pattern) (pos : nat) (s : str) (m : list nat) :
  Re.exec (Re.Paren :: p) pos s m = Re.exec p pos s (m ++ [pos]).
Proof. reflexivity. Qed.

Lemma exec_text_end (t s : str) (pos : nat) (m : list nat) :
  Re.exec (map Re.Lit t) pos (t ++ s) m = Some m.
Proof.
  rewrite <- (app_nil_r (map Re.Lit t)), exec_text. reflexivity.
Qed.

(** The pattern matches at a declaration of a version made of digits and
    dots, and its group is the version. *)
Lemma match_declaration (v post : str) :
  v <> [] -> forallb Re.digit_or_dot v = true ->
  Re.match_ version_re (declaration v ++ post)
  = Some {| Re.subject := declaration v ++ post;
            Re.marks := [26; 26 + length v] |}.
Proof.
  intros Hne Hv. unfold Re.match_.
  assert (E : Re.exec version_re 0 (declaration v ++ post) []
              = Some [26; 26 + length v]); [|now rewrite E].
  unfold version_re, declaration, Re.text, Re.group, Re.plus.
  rewrite <- !app_assoc, exec_text.
  destruct v as [|c v]; [easy|]. cbn [forallb] in Hv.
  apply andb_prop in Hv as [Hc Hv].
  cbn [app]. rewrite exec_lit, Ascii.eqb_refl, exec_paren, exec_set, Hc.
  apply exec_star_greedy; [exact Hv | reflexivity |].
  rewrite exec_paren, exec_lit, Ascii.eqb_refl, exec_text_end.
  cbn [app length]. do 3 f_equal. vm_compute (length (lit _)). lia.
Qed.

Lemma group_declaration (v post : str) :
  Re.group_ 1 {| Re.subject := declaration v ++ post;
                 Re.marks := [26; 26 + length v] |} = v.
Proof.
  unfold Re.group_, declaration. cbn [Re.marks Re.subject Nat.mul Nat.add Nat.sub nth].
  set (pre := lit "set(DCMTK_STATIC_VERSION " ++ [dquote]).
  set (rest := [dquote] ++ lit " CACHE STRING" ++ post).
  replace ((lit "set(DCMTK_STATIC_VERSION " ++ [dquote] ++ v ++ [dquote]
              ++ lit " CACHE STRING") ++ post)
    with (pre ++ v ++ rest)
    by (unfold pre, rest; now rewrite <- !app_assoc).
  rewrite (drop_app_length' pre) by reflexivity.
  rewrite Nat.sub_0_r. apply take_app_length.
Qed.

(** ** The names the pattern captures *)

Lemma exec_marks_prefix (p : Re.pattern) (pos : nat) (s : str) (m r : list nat) :
  Re.exec p pos s m = Some r -> exists m', r = m ++ m'.
Proof.
  revert pos s m. induction p as [|[c|cls|[|] cls|] p IH]; intros pos s m.
  - cbn [Re.exec]. intros [= <-]. exists []. now rewrite app_nil_r.
  - rewrite ?exec_lit. destruct s as [|a s]; [easy|]. rewrite exec_lit.
    destruct (Ascii.eqb a c); [apply IH | easy].
  - destruct s as [|a s]; [easy|]. rewrite exec_set.
    destruct (cls a); [apply IH | easy].
  - cbn [Re.exec]. revert pos. induction s as [|a s IHs]; intros pos.
    + apply IH.
    + destruct (cls a); [|apply IH].
      match goal with |- match ?x with _ => _ end = _ -> _ => destruct x eqn:E end.
      * intros [= <-]. apply (IHs _ E).
      * apply IH.
  - cbn [Re.exec]. revert pos. induction s as [|a s IHs]; intros pos.
    + destruct (Re.exec p pos [] m) eqn:E; [|easy].
      intros [= <-]. apply (IH _ _ _ E).
    + destruct (Re.exec p pos (a :: s) m) eqn:E.
      * intros [= <-]. apply (IH _ _ _ E).
      * destruct (cls a); [apply IHs | easy].
  - rewrite exec_paren. intros H. apply IH in H as [m' ->].
    exists (pos :: m'). now rewrite <- app_assoc.
Qed.

Lemma exec_text_inv (t : str) (p : Re.pattern) (pos : nat) (s : str) (m r : list nat) :
  Re.exec (map Re.Lit t ++ p) pos s m = Some r ->
  exists s', s = t ++ s' /\ Re.exec p (length t + pos) s' m = Some r.
Proof.
  revert pos s. induction t as [|c t IH]; intros pos s; [eauto|].
  cbn [map app]. destruct s as [|a s]; [easy|]. rewrite exec_lit.
  destruct (Ascii.eqb_spec a c) as [->|]; [|easy].
  intros H. apply IH in H as (s' & -> & H). exists s'. split; [reflexivity|].
  rewrite <- H. f_equal. simpl. lia.
Qed.

Lemma exec_star_lazy_inv (cls : ascii -> bool) (p : Re.pattern) (pos : nat)
  (s : str) (m r : list nat) :
  Re.exec (Re.Star Re.Lazy cls :: p) pos s m = Some r ->
  exists v s', s = v ++ s' /\ Re.exec p (length v + pos) s' m = Some r.
Proof.
  cbn [Re.exec]. revert pos. induction s as [|a s IHs]; intros pos.
  - destruct (Re.exec p pos [] m) eqn:E; [|easy].
    intros [= <-]. now exists [], [].
  - destruct (Re.exec p pos (a :: s) m) eqn:E.
    + intros [= <-]. now exists [], (a :: s).
    + destruct (cls a); [|easy]. intros H.
      apply IHs in H as (v & s' & -> & H). exists (a :: v), s'.
      split; [reflexivity|]. rewrite <- H. f_equal. simpl. lia.
Qed.

(** A captured name is not empty before its ending [Storage]. *)
Lemma uid_match_name (line : str) (e : entry) :
  uid_match line = Some e ->
  exists x, x <> [] /\ name e = x ++ lit "Storage".
Proof.
  unfold uid_match, Re.match_.
  destruct (Re.exec uid_re 0 line []) as [r|] eqn:E; [|easy].
  intros [= <-]. cbn [name].
  unfold uid_re, Re.text, Re.group, Re.plus in E.
  rewrite <- !app_assoc in E. cbn [app] in E.
  apply exec_text_inv in E as (s1 & -> & E).
  rewrite exec_paren in E. destruct s1 as [|c s1]; [easy|].
  rewrite exec_set in E. destruct (Re.dot c); [|easy].
  apply exec_star_lazy_inv in E as (v & s3 & -> & E).
  apply exec_text_inv in E as (s4 & -> & E).
  rewrite exec_paren in E. apply exec_marks_prefix in E as [m' ->].
  exists (c :: v). split; [easy|].
  unfold Re.group_. cbn [Re.marks Re.subject app nth Nat.mul Nat.add Nat.sub].
  change (c :: v ++ lit "Storage" ++ s4) with ((c :: v) ++ lit "Storage" ++ s4).
  rewrite (drop_app_length' (lit "#define UID_")) by reflexivity.
  rewrite app_assoc. apply take_app_length'.
  cbn [length]. rewrite length_app. lia.
Qed.

(** Padding does not identify two names that end with a character other
    than the space. *)
Lemma app_spaces_inj (a b : str) (c d : ascii) (j k : nat) :
  c <> space -> d <> space ->
  (a ++ [c]) ++ replicate j space = (b ++ [d]) ++ replicate k space ->
  a ++ [c] = b ++ [d].
Proof.
  intros Hc Hd.
  assert (Hno : forall (x : ascii) (l l' : str) (n : nat),
             x <> space -> replicate n space <> (l ++ [x]) ++ l').
  { intros x l l' n Hx H.
    assert (Hin : x ∈ replicate n space)
      by (rewrite H; apply list_elem_of_In, in_or_app; left;
          apply in_or_app; right; now left).
    apply elem_of_replicate in Hin as [-> _]. easy. }
  revert b. induction a as [|x a IH]; intros [|y b]; cbn [app]; intros [= E1 E2].
  - now subst.
  - exfalso. now apply (Hno d b (replicate k space) j).
  - exfalso. symmetry in E2. now apply (Hno c a (replicate j space) k).
  - subst. f_equal. now apply IH.
Qed.

Lemma matched_name (dcmtk : list bytes) (e : entry) :
  In e (matched dcmtk) -> exists x, x <> [] /\ name e = x ++ lit "Storage".
Proof.
  unfold matched. rewrite <- list_elem_of_In, list_elem_of_omap.
  intros (l & _ & H). exact (uid_match_name _ _ H).
Qed.

Lemma storage_spaces_inj (x1 x2 : str) (j k : nat) :
  (x1 ++ lit "Storage") ++ replicate j space
  = (x2 ++ lit "Storage") ++ replicate k space ->
  x1 ++ lit "Storage" = x2 ++ lit "Storage".
Proof.
  pose proof (app_spaces_inj (x1 ++ lit "Storag") (x2 ++ lit "Storag")
                "e"%char "e"%char j k) as H.
  rewrite <- !(app_assoc _ (lit "Storag")) in H.
  apply H; discriminate.
Qed.

Lemma pad_inj_matched (dcmtk : list bytes) (w : nat) (e1 e2 : entry) :
  In e1 (matched dcmtk) -> In e2 (matched dcmtk) ->
  pad w e1 = pad w e2 -> e1 = e2.
Proof.
  intros H1 H2. apply matched_name in H1 as (x1 & _ & N1), H2 as (x2 & _ & N2).
  destruct e1 as [n1 u1], e2 as [n2 u2]. cbn [name] in *. subst.
  unfold pad, set_name, ljust. cbn [name uid]. intros E.
  injection E as E ->. f_equal. revert E. apply storage_spaces_inj.
Qed.

(** ** The version of DCMTK *)

Example read_version_one :
  read_version (lit "# DCMTK" ++ [newline] ++ cmake_decl "3.6.9") = Ok (lit "3.6.9").
Proof. vm_compute. reflexivity. Qed.

Example read_version_none :
  read_version (lit "set(DCMTK_STATIC_VERSION " ++ [dquote] ++ lit "3.6.x")
  = Raise AssertionError.
Proof. vm_compute. reflexivity. Qed.

(** The claim C4 as the specification words it fails on a file with two
    declarations: the pattern matches twice, and the version of the first
    declaration is returned, where the claim asks for an error. *)
Lemma two_declarations_accepted :
  length (Re.matches version_re two_declarations) = 2
  /\ read_version two_declarations = Ok (lit "3.6.0")
  /\ ~ single_or_error two_declarations.
Proof.
  split; [vm_compute; reflexivity|].
  assert (H : read_version two_declarations = Ok (lit "3.6.0"))
    by (vm_compute; reflexivity).
  split; [exact H|].
  unfold single_or_error.
  destruct (Re.matches version_re two_declarations) as [|r1 [|r2 rest]] eqn:E;
    [vm_compute in E; discriminate .. |].
  rewrite H. intros [e He]. discriminate He.
Qed.

(** C4, as the code has it. The version is the group of the leftmost
    match of the pattern in the text, whether the pattern matches once or
    several times, and the assertion fails when it matches nowhere.  For a
    text that holds a declaration of a version [v] made of digits and
    dots, with no match starting before it, the version read is exactly
    [v]. *)
Theorem read_version_first_match (cmake : str) :
  read_version cmake
  = match Re.matches version_re cmake with
    | [] => Raise AssertionError
    | r :: _ => Ok (Re.group_ 1 r)
    end
  /\ forall pre v post,
       cmake = pre ++ declaration v ++ post ->
       v <> [] -> forallb Re.digit_or_dot v = true ->
       (forall i, i < length pre -> Re.match_ version_re (drop i cmake) = None) ->
       read_version cmake = Ok v.
Proof.
  split.
  - unfold read_version. rewrite search_matches.
    now destruct (Re.matches version_re cmake).
  - intros pre v post -> Hne Hv Hpre. unfold read_version.
    rewrite search_skip by exact Hpre.
    assert (Hs : Re.search version_re (declaration v ++ post)
                 = Some {| Re.subject := declaration v ++ post;
                           Re.marks := [26; 26 + length v] |}).
    { destruct (declaration v ++ post) eqn:E; cbn [Re.search];
        rewrite <- E, match_declaration by assumption; reflexivity. }
    rewrite Hs, group_declaration. reflexivity.
Qed.

(** ** The archive *)

Lemma find_dcuid_loop (members : list Tar.TarInfo) (dcuid : option bytes) :
  for_each (fun dcuid i =>
              if endswith (Tar.name i) dcuid_suffix then Tar.extractfile i
              else Ok dcuid)
           members dcuid
  = match first_raise (dcuid_members members) with
    | Some e => Raise e
    | None =>
        match last (dcuid_members members) with
        | Some i => Tar.extractfile i
        | None => Ok dcuid
        end
    end.
Proof.
  revert dcuid. induction members as [|i members IH]; intros dcuid; [reflexivity|].
  cbn [for_each dcuid_members List.filter]. fold (dcuid_members members).
  destruct (endswith (Tar.name i) dcuid_suffix); [|cbn [bind]; apply IH].
  unfold first_raise. cbn [omap list_omap].
  destruct (Tar.extractfile i) as [o|e] eqn:E; [|reflexivity].
  cbn [bind]. rewrite IH. unfold first_raise.
  destruct (head (omap _ (dcuid_members members))); [reflexivity|].
  rewrite last_cons. now destruct (last (dcuid_members members)).
Qed.

Example read_dcuid_last :
  read_dcuid two_files
  = Ok [define "MRImageStorage" "1.2.840.10008.5.1.4.1.1.4"].
Proof. vm_compute. reflexivity. Qed.

(** The claim C7 as the specification words it fails on two archives with
    two matching members.  When the first is a link whose target is
    missing and the last is a file, [tar.extractfile] raises on the link
    and the run stops there: the content of the last member is not handed
    on.  When the last is a directory, no content is handed on either: the
    assertion fails, although the other member is a file. *)
Lemma last_match_not_handed :
  (length (dcuid_members link_then_file) = 2
   /\ read_dcuid link_then_file = Raise KeyError
   /\ ~ last_content_handed link_then_file)
  /\ (length (dcuid_members file_then_directory) = 2
      /\ read_dcuid file_then_directory = Raise AssertionError
      /\ ~ last_content_handed file_then_directory).
Proof.
  split; (split; [vm_compute; reflexivity|]);
    (split; [vm_compute; reflexivity|]); unfold last_content_handed.
  - destruct (last (dcuid_members link_then_file)) as [i|] eqn:E;
      [|vm_compute in E; discriminate].
    intros (f & _ & Hr). vm_compute in Hr. discriminate Hr.
  - destruct (last (dcuid_members file_then_directory)) as [i|] eqn:E;
      [|vm_compute in E; discriminate].
    vm_compute in E. injection E as <-. intros (f & Hf & _). discriminate Hf.
Qed.

(** C7, as the code has it. The scan calls [tar.extractfile] on every member
    whose path ends with the path of [dcuid.h], in the order of the
    archive.  If one of these calls raises, the run stops with that
    exception.  Otherwise the scan keeps what the call gave for the last
    such member, however many there are: the lines of that member are
    handed on when it is a file, and the assertion fails when no member
    matches or when the last one that matches is not a file. *)
Theorem read_dcuid_last_match (members : list Tar.TarInfo) :
  read_dcuid members
  = match first_raise (dcuid_members members) with
    | Some e => Raise e
    | None =>
        match last (dcuid_members members) with
        | None => Raise AssertionError
        | Some i =>
            match Tar.extractfile i with
            | Ok (Some f) => Ok (readlines f)
            | _ => Raise AssertionError
            end
        end
    end.
Proof.
  unfold read_dcuid, find_dcuid. rewrite find_dcuid_loop.
  destruct (first_raise (dcuid_members members)) as [e|] eqn:R; [reflexivity|].
  destruct (last (dcuid_members members)) as [i|] eqn:L; [|reflexivity].
  destruct (Tar.extractfile i) as [[f|]|e] eqn:E; try reflexivity.
  (* the last member does not raise, since none does *)
  exfalso. unfold first_raise in R.
  apply last_Some in L as [l' L]. rewrite L, omap_app in R.
  cbn [omap list_omap] in R. rewrite E in R.
  now destruct (omap _ l').
Qed.

(** ** The scan of the header *)

Lemma decode_ok (l : bytes) : decodable l -> decode l = Ok (text_of l).
Proof. unfold decodable, decode. now intros ->. Qed.

Lemma decode_raise (l : bytes) : ~ decodable l -> decode l = Raise UnicodeDecodeError.
Proof. unfold decodable, decode. now destruct (forallb is_ascii l). Qed.

Lemma decodable_dec (l : bytes) : {decodable l} + {~ decodable l}.
Proof. unfold decodable. destruct (forallb is_ascii l); [now left | now right]. Qed.

Lemma scan_line_spec (all : list entry) (n : nat) (l : bytes) :
  scan_line (all, n) l =
  match decode l with
  | Raise e => Raise e
  | Ok line =>
      match uid_match line with
      | Some e => Ok (all ++ [e], max n (length (name e)))
      | None => Ok (all, n)
      end
  end.
Proof.
  unfold scan_line, uid_match. destruct (decode l) as [line|e]; simpl; [|reflexivity].
  now destruct (Re.match_ uid_re line).
Qed.

Lemma matched_cons (l : bytes) (dcmtk : list bytes) :
  matched (l :: dcmtk)
  = match uid_match (text_of l) with
    | Some e => e :: matched dcmtk
    | None => matched dcmtk
    end.
Proof. reflexivity. Qed.

Lemma scan_ok (dcmtk : list bytes) (all : list entry) (n : nat) :
  Forall decodable dcmtk ->
  for_each scan_line dcmtk (all, n)
  = Ok (all ++ matched dcmtk, max n (longest_name (matched dcmtk))).
Proof.
  intros H. revert all n. induction H as [|l dcmtk Hl _ IH]; intros all n.
  - simpl. unfold matched, longest_name. simpl. rewrite app_nil_r. f_equal. f_equal. lia.
  - cbn [for_each]. rewrite scan_line_spec, (decode_ok l Hl), matched_cons.
    destruct (uid_match (text_of l)) as [e|]; cbn [bind].
    + rewrite IH, <- app_assoc. unfold longest_name. simpl. f_equal. f_equal. lia.
    + apply IH.
Qed.

Lemma scan_raise (dcmtk : list bytes) (st : list entry * nat) :
  Exists (fun l => ~ decodable l) dcmtk ->
  for_each scan_line dcmtk st = Raise UnicodeDecodeError.
Proof.
  intros H. revert st. induction dcmtk as [|l dcmtk IH]; intros [all n].
  - inversion H.
  - cbn [for_each]. rewrite scan_line_spec.
    destruct (decodable_dec l) as [Hl|Hl].
    + rewrite (decode_ok l Hl).
      assert (Hrest : Exists (fun l => ~ decodable l) dcmtk)
        by (inversion H; [contradiction | assumption]).
      destruct (uid_match (text_of l)); cbn [bind]; apply IH, Hrest.
    + now rewrite (decode_raise l Hl).
Qed.

(** The index of a header all of whose lines are ASCII: the matched pairs
    sorted by name, padded to the longest name, and filtered. *)
Lemma index_store_scp_ok (dcmtk : list bytes) :
  Forall decodable dcmtk ->
  index_store_scp dcmtk
  = Ok (classify (map (pad (longest_name (matched dcmtk)))
                      (sorted name (matched dcmtk)))).
Proof.
  intros H. unfold index_store_scp. rewrite (scan_ok dcmtk [] 0 H).
  cbn [bind app]. rewrite pad_names_map. reflexivity.
Qed.

(** The first group is the shortest name after which the rest of the
    pattern matches, and so is the second. *)
Example uid_match_backtracks :
  uid_match (lit "#define UID_RETIRED_StorageServiceStorage  " ++ [dquote]
             ++ lit "1.2.3" ++ [dquote] ++ lit " // " ++ [dquote] ++ lit "old" ++ [dquote; newline])
  = Some (ent "RETIRED_StorageServiceStorage" "1.2.3").
Proof. vm_compute. reflexivity. Qed.

Example uid_match_not_storage :
  uid_match (text_of (define "FINDPatientRootQueryRetrieveInformationModel"
                             "1.2.840.10008.5.1.4.1.2.1.1")) = None.
Proof. vm_compute. reflexivity. Qed.

Example readlines_ex :
  readlines (blit "ab" ++ [x0a; x0a] ++ blit "c") = [blit "ab" ++ [x0a]; [x0a]; blit "c"].
Proof. vm_compute. reflexivity. Qed.

Example index_store_scp_ex :
  index_store_scp sample_header
  = Ok {| store_scp :=
            [ ent "CTImageStorage                         " "1.2.840.10008.5.1.4.1.1.2";
              ent "SecondaryCaptureImageStorage           " "1.2.840.10008.5.1.4.1.1.7" ];
          retired_store_scp :=
            [ ent "RETIRED_NuclearMedicineImageStorage    " "1.2.840.10008.5.1.4.1.1.5" ];
          draft_store_scp :=
            [ ent "DRAFT_RTBeamsDeliveryInstructionStorage" "1.2.840.10008.5.1.4.34.1" ] |}.
Proof. vm_compute. reflexivity. Qed.

(** ** The three classes *)

Lemma class_cases (e : entry) :
  (is_current e = true /\ is_draft e = false /\ is_retired e = false)
  \/ (is_current e = false /\ is_draft e = true /\ is_retired e = false)
  \/ (is_current e = false /\ is_draft e = false /\ is_retired e = true).
Proof.
  unfold is_current. fold (is_draft e) (is_retired e).
  destruct (is_draft e) eqn:D.
  - rewrite (draft_not_retired e D). auto.
  - destruct (is_retired e); auto.
Qed.

Lemma classes_perm (l : list entry) :
  Permutation
    (List.filter is_current l ++ List.filter is_draft l ++ List.filter is_retired l) l.
Proof.
  induction l as [|x l IH]; [reflexivity|].
  cbn [List.filter].
  destruct (class_cases x) as [(-> & -> & ->)|[(-> & -> & ->)|(-> & -> & ->)]].
  - simpl. now apply perm_skip.
  - cbn [app]. rewrite <- Permutation_middle. now apply perm_skip.
  - rewrite app_assoc, <- Permutation_middle, <- app_assoc. now apply perm_skip.
Qed.

Lemma classify_pad (w : nat) (l : list entry) :
  classify (map (pad w) l)
  = {| store_scp := map (pad w) (List.filter is_current l);
       retired_store_scp := map (pad w) (List.filter is_retired l);
       draft_store_scp := map (pad w) (List.filter is_draft l) |}.
Proof.
  unfold classify. f_equal; apply filter_map_commute; intros e.
  - apply is_current_pad.
  - apply is_retired_pad.
  - apply is_draft_pad.
Qed.

(** C1. For every header whose lines are ASCII text, the index is made of
    three lists [current], [draft] and [retired] of matched (name, uid)
    pairs, each pair with its name padded; together the three lists hold
    every matched pair exactly once (they are a permutation of the matched
    pairs), and the padding makes no two matched pairs equal; the three
    lists of the index have no entry in common; every
    name of [draft_store_scp] starts with DRAFT, every name of
    [retired_store_scp] starts with RETIRED, and no name of [store_scp]
    starts with either. *)
Theorem index_store_scp_partition (dcmtk : list bytes) :
  Forall decodable dcmtk ->
  exists (idx : store_scp_index) (current draft retired : list entry),
    index_store_scp dcmtk = Ok idx
    /\ store_scp idx = map (pad (longest_name (matched dcmtk))) current
    /\ draft_store_scp idx = map (pad (longest_name (matched dcmtk))) draft
    /\ retired_store_scp idx = map (pad (longest_name (matched dcmtk))) retired
    /\ Permutation (current ++ draft ++ retired) (matched dcmtk)
    /\ (forall e1 e2, In e1 (matched dcmtk) -> In e2 (matched dcmtk) ->
          pad (longest_name (matched dcmtk)) e1
          = pad (longest_name (matched dcmtk)) e2 -> e1 = e2)
    /\ (forall e, In e (store_scp idx) -> ~ In e (draft_store_scp idx))
    /\ (forall e, In e (store_scp idx) -> ~ In e (retired_store_scp idx))
    /\ (forall e, In e (draft_store_scp idx) -> ~ In e (retired_store_scp idx))
    /\ Forall (fun e => startswith (name e) (lit "DRAFT") = true)
         (draft ++ draft_store_scp idx)
    /\ Forall (fun e => startswith (name e) (lit "RETIRED") = true)
         (retired ++ retired_store_scp idx)
    /\ Forall (fun e => startswith (name e) (lit "DRAFT") = false
                        /\ startswith (name e) (lit "RETIRED") = false)
         (current ++ store_scp idx).
Proof.
  intros H.
  set (w := longest_name (matched dcmtk)).
  set (all := sorted name (matched dcmtk)).
  exists (classify (map (pad w) all)),
    (List.filter is_current all), (List.filter is_draft all),
    (List.filter is_retired all).
  split; [apply index_store_scp_ok, H|].
  rewrite classify_pad. cbn [store_scp draft_store_scp retired_store_scp].
  repeat split.
  - rewrite classes_perm. symmetry. apply sorted_perm.
  - intros e1 e2. apply pad_inj_matched.
  - intros e Hc Hd.
    rewrite <- (filter_map_commute is_current is_current (pad w)) in Hc
      by apply is_current_pad.
    rewrite <- (filter_map_commute is_draft is_draft (pad w)) in Hd
      by apply is_draft_pad.
    apply filter_In in Hc as [_ Hc], Hd as [_ Hd].
    destruct (class_cases e) as [(? & ? & ?)|[(? & ? & ?)|(? & ? & ?)]]; congruence.
  - intros e Hc Hr.
    rewrite <- (filter_map_commute is_current is_current (pad w)) in Hc
      by apply is_current_pad.
    rewrite <- (filter_map_commute is_retired is_retired (pad w)) in Hr
      by apply is_retired_pad.
    apply filter_In in Hc as [_ Hc], Hr as [_ Hr].
    destruct (class_cases e) as [(? & ? & ?)|[(? & ? & ?)|(? & ? & ?)]]; congruence.
  - intros e Hd Hr.
    rewrite <- (filter_map_commute is_draft is_draft (pad w)) in Hd
      by apply is_draft_pad.
    rewrite <- (filter_map_commute is_retired is_retired (pad w)) in Hr
      by apply is_retired_pad.
    apply filter_In in Hd as [_ Hd], Hr as [_ Hr].
    destruct (class_cases e) as [(? & ? & ?)|[(? & ? & ?)|(? & ? & ?)]]; congruence.
  - rewrite <- (filter_map_commute is_draft is_draft (pad w)) by apply is_draft_pad.
    apply List.Forall_forall. intros e He.
    apply in_app_or in He as [He|He]; now apply filter_In in He as [_ He].
  - rewrite <- (filter_map_commute is_retired is_retired (pad w))
      by apply is_retired_pad.
    apply List.Forall_forall. intros e He.
    apply in_app_or in He as [He|He]; now apply filter_In in He as [_ He].
  - rewrite <- (filter_map_commute is_current is_current (pad w))
      by apply is_current_pad.
    apply List.Forall_forall. intros e He.
    assert (Hc : is_current e = true)
      by (apply in_app_or in He as [He|He]; now apply filter_In in He as [_ He]).
    unfold is_current in Hc. apply andb_prop in Hc as [Hd Hr].
    now rewrite negb_true_iff in Hd, Hr.
Qed.

(** C2. For every header whose lines are ASCII text there is one list
    [all] of the matched pairs, sorted by name (pairs of equal names in the
    order of their lines), of which each list of the index is the
    restriction to its class, in the same order, with the names padded:
    the lists are not sorted one by one. *)
Theorem index_store_scp_order (dcmtk : list bytes) :
  Forall decodable dcmtk ->
  exists (idx : store_scp_index) (all : list entry),
    index_store_scp dcmtk = Ok idx
    /\ Permutation all (matched dcmtk)
    /\ StronglySorted (key_le name) all
    /\ (forall k, List.filter (has_key name k) all
                  = List.filter (has_key name k) (matched dcmtk))
    /\ store_scp idx
       = map (pad (longest_name (matched dcmtk))) (List.filter is_current all)
    /\ draft_store_scp idx
       = map (pad (longest_name (matched dcmtk))) (List.filter is_draft all)
    /\ retired_store_scp idx
       = map (pad (longest_name (matched dcmtk))) (List.filter is_retired all).
Proof.
  intros H. eexists _, (sorted name (matched dcmtk)).
  split; [apply index_store_scp_ok, H|].
  rewrite classify_pad. cbn [store_scp draft_store_scp retired_store_scp].
  repeat split.
  - symmetry. apply sorted_perm.
  - apply sorted_sorted.
  - intros k. apply sorted_stable.
Qed.

(** C8. Padding a collection whose names all have the length of its
    longest name, to that length, changes nothing. *)
Theorem pad_names_idempotent (l : list entry) :
  Forall (fun e => length (name e) = longest_name l) l ->
  pad_names (longest_name l) l = l.
Proof.
  rewrite pad_names_map. generalize (longest_name l). intros w H.
  induction H as [|e l He _ IH]; [reflexivity|].
  cbn [map]. rewrite IH. f_equal.
  unfold pad, set_name. rewrite ljust_long by lia. now destruct e.
Qed.

Lemma max_list_all (w : nat) (m : list nat) :
  Forall (fun n => n = w) m -> m <> [] -> max_list m = w.
Proof.
  induction 1 as [|n m -> Hm IH]; [easy|]. intros _.
  destruct m as [|n' m]; simpl in *; [lia|].
  rewrite IH by easy. lia.
Qed.

Lemma pad_longest_length (l : list entry) (e : entry) :
  In e l -> length (name (pad (longest_name l) e)) = longest_name l.
Proof.
  intros He. rewrite pad_name, length_app, length_replicate.
  pose proof (longest_name_ge l e He). lia.
Qed.

Lemma longest_name_pad (l : list entry) :
  longest_name (map (pad (longest_name l)) l) = longest_name l.
Proof.
  destruct l as [|x l]; [reflexivity|].
  unfold longest_name at 1. rewrite map_map. apply max_list_all; [|easy].
  apply List.Forall_forall. intros n Hn.
  apply in_map_iff in Hn as (e & <- & He). now apply pad_longest_length.
Qed.

(** What the padding loop gives is padded to its own longest name. *)
Lemma pad_names_padded (l : list entry) :
  let l' := pad_names (longest_name l) l in
  Forall (fun e => length (name e) = longest_name l') l'.
Proof.
  cbv zeta. rewrite pad_names_map, longest_name_pad.
  apply List.Forall_forall. intros o Ho.
  apply in_map_iff in Ho as (e & <- & He). now apply pad_longest_length.
Qed.

(** C9. Filtering the padded names by the prefixes DRAFT and RETIRED gives
    the same three lists as filtering the names before they are padded,
    and padding the result. *)
Theorem classify_pad_names (w : nat) (l : list entry) :
  classify (pad_names w l)
  = {| store_scp := pad_names w (store_scp (classify l));
       retired_store_scp := pad_names w (retired_store_scp (classify l));
       draft_store_scp := pad_names w (draft_store_scp (classify l)) |}.
Proof. rewrite !pad_names_map. apply classify_pad. Qed.

(** C10. A line leaves the state of the scan as it is exactly when it is
    ASCII text that does not match the pattern; a line with a byte that is
    not ASCII raises [UnicodeDecodeError], whatever the line is, and so
    does the whole extraction of a header that has such a line. *)
Theorem undecodable_line_raises (st : list entry * nat) (l : bytes) :
  (scan_line st l = Ok st <-> decodable l /\ uid_match (text_of l) = None)
  /\ (~ decodable l ->
      scan_line st l = Raise UnicodeDecodeError
      /\ forall before after,
           index_store_scp (before ++ l :: after) = Raise UnicodeDecodeError).
Proof.
  destruct st as [all n]. split; [split|].
  - rewrite scan_line_spec. destruct (decodable_dec l) as [Hl|Hl].
    + rewrite (decode_ok l Hl). destruct (uid_match (text_of l)) as [e|]; [|easy].
      intros Heq. exfalso. injection Heq as Heq _.
      apply (f_equal length) in Heq. rewrite length_app in Heq. simpl in Heq. lia.
    + now rewrite (decode_raise l Hl).
  - intros [Hl Hm]. now rewrite scan_line_spec, (decode_ok l Hl), Hm.
  - intros Hl. split.
    + now rewrite scan_line_spec, (decode_raise l Hl).
    + intros before after. unfold index_store_scp.
      rewrite scan_raise; [reflexivity|].
      apply List.Exists_exists. exists l. split; [|exact Hl].
      apply in_or_app. right. now left.
Qed.

Lemma max_list_in (m : list nat) : m <> [] -> In (max_list m) m.
Proof.
  induction m as [|n m IH]; [easy|]. intros _.
  destruct m as [|n' m]; [left; simpl; lia|].
  specialize (IH ltac:(easy)).
  change (max_list (n :: n' :: m)) with (n `max` max_list (n' :: m)).
  destruct (Nat.max_spec n (max_list (n' :: m))) as [[_ ->]|[_ ->]];
    [now right | now left].
Qed.

Lemma entries_classify (l : list entry) (e : entry) :
  In e (entries (classify l)) -> In e l.
Proof.
  unfold entries, classify. cbn [store_scp draft_store_scp retired_store_scp].
  rewrite !in_app_iff, !filter_In. tauto.
Qed.

(** The claim C3 as the specification words it fails: with the names
    [CTImageStorage] and [EnhancedCTImageStorage], the shorter name is
    followed by eight spaces in the index, not preceded by them. *)
Lemma left_padding_fails :
  exists idx, index_store_scp two_names = Ok idx /\ ~ left_padded two_names idx.
Proof.
  eexists. split; [vm_compute; reflexivity|].
  intros H.
  destruct (H (ent "CTImageStorage        " "1.2.840.10008.5.1.4.1.1.2"))
    as (e & k & He & _ & Hn & _).
  - vm_compute. auto.
  - vm_compute in He. destruct He as [<-|[<-|[]]];
      destruct k; vm_compute in Hn; discriminate.
Qed.

(** C3, as the code has it. For every header whose lines are ASCII text,
    the width is the greatest length of a matched name, over all the
    matched names and not per class, and every name of the three lists of
    the index is a matched name followed by spaces ([ljust] pads on the
    right) up to that width: all the names of the index have that one
    length. *)
Theorem names_right_padded (dcmtk : list bytes) :
  Forall decodable dcmtk ->
  exists idx,
    index_store_scp dcmtk = Ok idx
    /\ right_padded dcmtk idx
    /\ (forall e, In e (matched dcmtk) ->
          length (name e) <= longest_name (matched dcmtk))
    /\ (matched dcmtk <> [] ->
          exists e, In e (matched dcmtk)
                    /\ length (name e) = longest_name (matched dcmtk)).
Proof.
  intros H. eexists. split; [apply index_store_scp_ok, H|].
  split; [|split].
  - intros o Ho. apply entries_classify, in_map_iff in Ho as (e & <- & He).
    apply (Permutation_in _ (Permutation_sym (sorted_perm name _))) in He.
    exists e, (longest_name (matched dcmtk) - length (name e)).
    repeat split; [exact He|]. now apply pad_longest_length.
  - apply longest_name_ge.
  - intros Hne. unfold longest_name.
    assert (Hin : In (max_list (map (fun e => length (name e)) (matched dcmtk)))
                     (map (fun e => length (name e)) (matched dcmtk))).
    { apply max_list_in. destruct (matched dcmtk); [easy | discriminate]. }
    apply in_map_iff in Hin as (e & He & Hin). eauto.
Qed.

(** ** The transfer syntaxes *)

Lemma collect_loop (l1 l2 : list transfer_syntax) (st : list entry * nat) :
  foldl (fun st i =>
           match (l1 ++ l2) !! i with
           | Some r =>
               let item := make_item r in
               (st.1 ++ [item], max st.2 (length (name item)))
           | None => st
           end)
        st (seq (length l1) (length l2))
  = (st.1 ++ map make_item l2, max st.2 (longest_name (map make_item l2))).
Proof.
  revert l1 st. induction l2 as [|r l2 IH]; intros l1 [ts n].
  - cbn. rewrite app_nil_r. f_equal. unfold longest_name. simpl. lia.
  - cbn [length seq foldl]. rewrite list_lookup_middle by reflexivity.
    pose proof (IH (l1 ++ [r])) as IH'.
    rewrite <- app_assoc, length_app in IH'. cbn [app length] in IH'.
    rewrite Nat.add_1_r in IH'. rewrite IH'.
    cbn [fst snd map]. rewrite <- app_assoc. f_equal.
    unfold longest_name. simpl. lia.
Qed.

Lemma collect_transfer_syntaxes_spec (a : list transfer_syntax) :
  collect_transfer_syntaxes a
  = (map make_item a, longest_name (map make_item a)).
Proof. apply (collect_loop [] a ([], 0)). Qed.

Lemma load_transfer_syntaxes_spec (a : list transfer_syntax) :
  load_transfer_syntaxes a
  = map (pad (longest_name (map make_item a))) (sorted uid (map make_item a)).
Proof.
  unfold load_transfer_syntaxes. rewrite collect_transfer_syntaxes_spec.
  apply pad_names_map.
Qed.

Lemma sorted_map_pad (w : nat) (l : list entry) :
  StronglySorted (key_le uid) l -> StronglySorted (key_le uid) (map (pad w) l).
Proof.
  induction 1 as [|e l Hl IH He]; cbn [map]; constructor; [exact IH|].
  rewrite List.Forall_map. exact He.
Qed.

(** C6. The loader gives, for the records of the file, the entries of
    name [Value] followed by [TransferSyntax] and of uid [UID], every name
    padded to the length of the longest of these names, in the order of
    the uids as strings, compared character by character (entries of equal
    uids in the order of the file). *)
Theorem transfer_syntaxes_loaded (a : list transfer_syntax) :
  exists all : list entry,
    Permutation all
      (map (fun r => {| name := Value r ++ lit "TransferSyntax"; uid := UID r |}) a)
    /\ (forall k, List.filter (has_key uid k) all
                  = List.filter (has_key uid k)
                      (map (fun r => {| name := Value r ++ lit "TransferSyntax";
                                         uid := UID r |}) a))
    /\ load_transfer_syntaxes a
       = map (fun e => {| name := ljust (name e) (longest_name all); uid := uid e |}) all
    /\ Forall (fun e => length (name e) = longest_name all) (load_transfer_syntaxes a)
    /\ StronglySorted (fun x y => str_leb (uid x) (uid y) = true)
         (load_transfer_syntaxes a).
Proof.
  exists (sorted uid (map make_item a)).
  assert (Hw : longest_name (sorted uid (map make_item a))
               = longest_name (map make_item a))
    by (symmetry; apply longest_name_perm, sorted_perm).
  rewrite load_transfer_syntaxes_spec, Hw.
  split; [symmetry; apply (sorted_perm uid)|].
  split; [intros k; apply sorted_stable|].
  split; [reflexivity|].
  split.
  - rewrite <- Hw. apply List.Forall_forall. intros o Ho.
    apply in_map_iff in Ho as (e & <- & He). now apply pad_longest_length.
  - apply (sorted_map_pad _ _ (sorted_sorted uid _)).
Qed.

Example transfer_syntaxes_one :
  load_transfer_syntaxes
    [ {| Value := lit "ImplicitVRLittleEndian"; UID := lit "1.2.840.10008.1.2" |} ]
  = [ ent "ImplicitVRLittleEndianTransferSyntax" "1.2.840.10008.1.2" ].
Proof. vm_compute. reflexivity. Qed.

(** The order is that of the strings: 1.2.10 comes before 1.2.9. *)
Example transfer_syntaxes_not_numeric :
  load_transfer_syntaxes
    [ {| Value := lit "B"; UID := lit "1.2.9" |};
      {| Value := lit "LongA"; UID := lit "1.2.10" |} ]
  = [ ent "LongATransferSyntax" "1.2.10"; ent "BTransferSyntax    " "1.2.9" ].
Proof. vm_compute. reflexivity. Qed.

(** ** The output file *)



(** ** The script *)

(** X14. Without a declaration of the version in the CMake file the script
    stops on the assertion, whatever the network would answer, and with
    the files as they were: the output file is not emptied. *)
Lemma script_without_declaration
  (get : str -> result bytes) (getmembers : bytes -> result (list Tar.TarInfo))
  (loads : str -> result (list transfer_syntax))
  (render : str -> gmap string (list entry) -> result str)
  (fs : gmap string str) (cmake : str) :
  fs !! cmake_path = Some cmake ->
  Re.matches version_re cmake = [] ->
  script get getmembers loads render fs = (fs, Raise AssertionError).
Proof.
  intros Hf Hm. unfold script, prepare, read_file. rewrite Hf. cbn [bind].
  unfold read_version. now rewrite search_matches, Hm.
Qed.

(** ** The theorems at sample inputs *)

Ltac all_decodable :=
  repeat first [ apply List.Forall_nil
               | apply List.Forall_cons; [vm_compute; reflexivity|] ].

Lemma index_store_scp_partition_witness :
  Forall decodable sample_header
  /\ exists (idx : store_scp_index) (current draft retired : list entry),
       index_store_scp sample_header = Ok idx
       /\ store_scp idx = map (pad (longest_name (matched sample_header))) current
       /\ draft_store_scp idx = map (pad (longest_name (matched sample_header))) draft
       /\ retired_store_scp idx
          = map (pad (longest_name (matched sample_header))) retired
       /\ Permutation (current ++ draft ++ retired) (matched sample_header).
Proof.
  assert (H : Forall decodable sample_header) by all_decodable.
  split; [exact H|].
  destruct (index_store_scp_partition sample_header H)
    as (idx & c & d & r & H1 & H2 & H3 & H4 & H5 & _).
  exists idx, c, d, r. auto.
Defined.

Lemma index_store_scp_order_witness :
  Forall decodable sample_header
  /\ exists (idx : store_scp_index) (all : list entry),
       index_store_scp sample_header = Ok idx
       /\ Permutation all (matched sample_header)
       /\ StronglySorted (key_le name) all.
Proof.
  assert (H : Forall decodable sample_header) by all_decodable.
  split; [exact H|].
  destruct (index_store_scp_order sample_header H) as (idx & all & H1 & H2 & H3 & _).
  exists idx, all. auto.
Defined.

Lemma names_right_padded_witness :
  Forall decodable two_names
  /\ exists idx, index_store_scp two_names = Ok idx /\ right_padded two_names idx.
Proof.
  assert (H : Forall decodable two_names) by all_decodable.
  split; [exact H|].
  destruct (names_right_padded two_names H) as (idx & H1 & H2 & _).
  exists idx. auto.
Defined.

Lemma read_version_first_match_witness :
  read_version (lit "# DCMTK" ++ [newline] ++ cmake_decl "3.6.9") = Ok (lit "3.6.9").
Proof.
  apply (proj2 (read_version_first_match _)
           (lit "# DCMTK" ++ [newline]) (lit "3.6.9")
           (lit " " ++ [dquote; dquote] ++ lit ")" ++ [newline])).
  - vm_compute. reflexivity.
  - discriminate.
  - vm_compute. reflexivity.
  - intros i Hi. do 8 (destruct i as [|i]; [vm_compute; reflexivity|]).
    vm_compute in Hi. lia.
Defined.

Lemma pad_names_idempotent_witness :
  Forall (fun e => length (name e) = longest_name same_width) same_width
  /\ pad_names (longest_name same_width) same_width = same_width.
Proof.
  assert (H : Forall (fun e => length (name e) = longest_name same_width) same_width)
    by (repeat constructor).
  split; [exact H | exact (pad_names_idempotent same_width H)].
Defined.

Lemma undecodable_line_raises_witness :
  ~ decodable latin1_comment
  /\ index_store_scp
       ([define "CTImageStorage" "1.2.840.10008.5.1.4.1.1.2"]
        ++ latin1_comment :: [define "MRImageStorage" "1.2.840.10008.5.1.4.1.1.4"])
     = Raise UnicodeDecodeError.
Proof.
  assert (H : ~ decodable latin1_comment) by (vm_compute; discriminate).
  split; [exact H|].
  exact (proj2 (proj2 (undecodable_line_raises ([], 0) latin1_comment) H) _ _).
Defined.

(** * Further properties of the script *)

(** ** The lines of [dcuid.h] *)

Lemma readlines_from_concat (line b : bytes) :
  concat (readlines_from line b) = line ++ b.
Proof.
  revert line. induction b as [|c b IH]; intros line; cbn [readlines_from].
  - destruct line; [reflexivity|]. cbn [concat]. now rewrite !app_nil_r.
  - destruct (Byte.eqb c x0a).
    + cbn [concat]. rewrite IH, <- app_assoc. reflexivity.
    + rewrite IH, <- app_assoc. reflexivity.
Qed.

(** X1. [readlines] loses nothing and adds nothing: the lines, put end to
    end, are the content of the file. *)
Theorem readlines_concat (b : bytes) : concat (readlines b) = b.
Proof. apply (readlines_from_concat [] b). Qed.

Lemma readlines_from_lines (line b : bytes) (i : nat) (l : bytes) :
  ~ In x0a line ->
  readlines_from line b !! i = Some l ->
  exists body,
    ~ In x0a body
    /\ (l = body ++ [x0a]
        \/ (l = body /\ body <> [] /\ S i = length (readlines_from line b))).
Proof.
  revert line i. induction b as [|c b IH]; intros line i Hline; cbn [readlines_from].
  - destruct line as [|c line]; [easy|].
    destruct i as [|i]; [|easy]. intros [= <-].
    exists (c :: line). split; [exact Hline|]. right. easy.
  - destruct (Byte.eqb c x0a) eqn:E.
    + apply byte_dec_bl in E. subst c. destruct i as [|i].
      * intros [= <-]. exists line. split; [exact Hline|]. now left.
      * intros H. apply (IH [] i) in H as (body & Hb & H); [|easy].
        exists body. split; [exact Hb|].
        destruct H as [H|(H1 & H2 & H3)]; [now left|].
        right. cbn [length]. now rewrite <- H3.
    + apply IH. intros H. apply in_app_or in H as [H|[H|[]]]; [easy|].
      now apply eqb_false in E.
Qed.

(** X2. Every line that [readlines] gives ends with its only line feed,
    but for the last one, which can be a non-empty rest without a line
    feed: no line is empty, and no line holds two line feeds. *)
Theorem readlines_lines (b : bytes) (i : nat) (l : bytes) :
  readlines b !! i = Some l ->
  exists body,
    ~ In x0a body
    /\ (l = body ++ [x0a]
        \/ (l = body /\ body <> [] /\ S i = length (readlines b))).
Proof. apply readlines_from_lines. easy. Qed.

Lemma readlines_lines_witness :
  readlines (blit "ab" ++ [x0a] ++ blit "c") !! 1 = Some (blit "c")
  /\ exists body,
       ~ In x0a body
       /\ (blit "c" = body ++ [x0a]
           \/ (blit "c" = body /\ body <> []
               /\ 2 = length (readlines (blit "ab" ++ [x0a] ++ blit "c")))).
Proof.
  assert (H : readlines (blit "ab" ++ [x0a] ++ blit "c") !! 1 = Some (blit "c"))
    by reflexivity.
  split; [exact H | exact (readlines_lines _ 1 _ H)].
Defined.

(** X3. The lines handed to the extraction are, put end to end, the whole
    content of a file of the archive whose path ends with the path of
    [dcuid.h]. *)
Theorem read_dcuid_content (members : list Tar.TarInfo) (dcmtk : list bytes) :
  read_dcuid members = Ok dcmtk ->
  exists i,
    In i members
    /\ endswith (Tar.name i) dcuid_suffix = true
    /\ Tar.extractfile i = Ok (Some (concat dcmtk)).
Proof.
  unfold read_dcuid, find_dcuid. rewrite find_dcuid_loop.
  destruct (first_raise (dcuid_members members)); [easy|].
  destruct (last (dcuid_members members)) as [i|] eqn:E; [|easy].
  destruct (Tar.extractfile i) as [[f|]|e] eqn:F; [|easy..].
  intros [= <-]. exists i.
  apply last_Some_elem_of, list_elem_of_In, filter_In in E as [Hin Hend].
  unfold readlines. rewrite readlines_from_concat. auto.
Qed.

Lemma read_dcuid_content_witness :
  exists i,
    In i two_files
    /\ endswith (Tar.name i) dcuid_suffix = true
    /\ Tar.extractfile i
       = Ok (Some (concat [define "MRImageStorage" "1.2.840.10008.5.1.4.1.1.4"])).
Proof.
  apply (read_dcuid_content two_files). vm_compute. reflexivity.
Defined.

(** ** What the patterns accept *)

Lemma search_inv (p : Re.pattern) (s : str) (r : Re.match_object) :
  Re.search p s = Some r ->
  exists pre, s = pre ++ Re.subject r /\ Re.match_ p (Re.subject r) = Some r.
Proof.
  assert (Hm : forall s', Re.match_ p s' = Some r -> Re.subject r = s').
  { intros s'. unfold Re.match_. destruct (Re.exec p 0 s' []); [|easy].
    now intros [= <-]. }
  induction s as [|c s IH]; cbn [Re.search].
  - destruct (Re.match_ p []) eqn:E; [|easy]. intros [= ->].
    exists []. rewrite (Hm _ E). auto.
  - destruct (Re.match_ p (c :: s)) eqn:E.
    + intros [= ->]. exists []. rewrite (Hm _ E). auto.
    + intros H. apply IH in H as (pre & -> & H). now exists (c :: pre).
Qed.

Lemma exec_lit_inv (c : ascii) (p : Re.pattern) (pos : nat) (s : str)
  (m r : list nat) :
  Re.exec (Re.Lit c :: p) pos s m = Some r ->
  exists s', s = c :: s' /\ Re.exec p (S pos) s' m = Some r.
Proof.
  destruct s as [|a s]; [easy|]. rewrite exec_lit.
  destruct (Ascii.eqb_spec a c) as [->|]; [eauto | easy].
Qed.

Lemma exec_set_inv (cls : ascii -> bool) (p : Re.pattern) (pos : nat) (s : str)
  (m r : list nat) :
  Re.exec (Re.Set_ cls :: p) pos s m = Some r ->
  exists a s', s = a :: s' /\ cls a = true /\ Re.exec p (S pos) s' m = Some r.
Proof.
  destruct s as [|a s]; [easy|]. rewrite exec_set.
  destruct (cls a) eqn:E; [eauto | easy].
Qed.

(** What a repetition has taken is made of characters of its set. *)
Lemma exec_star_inv (g : Re.greed) (cls : ascii -> bool) (p : Re.pattern)
  (pos : nat) (s : str) (m r : list nat) :
  Re.exec (Re.Star g cls :: p) pos s m = Some r ->
  exists v s',
    s = v ++ s' /\ forallb cls v = true
    /\ Re.exec p (length v + pos) s' m = Some r.
Proof.
  destruct g; cbn [Re.exec]; revert pos; induction s as [|a s IHs]; intros pos.
  - intros H. now exists [], [].
  - destruct (cls a) eqn:Ha; [|intros H; now exists [], (a :: s)].
    match goal with |- match ?x with _ => _ end = _ -> _ => destruct x eqn:E end.
    + intros [= <-]. apply IHs in E as (v & s' & -> & Hv & E).
      exists (a :: v), s'. cbn [forallb]. rewrite Ha, Hv.
      repeat split. rewrite <- E. f_equal. simpl. lia.
    + intros H. now exists [], (a :: s).
  - destruct (Re.exec p pos [] m) eqn:E; [|easy].
    intros [= <-]. now exists [], [].
  - destruct (Re.exec p pos (a :: s) m) eqn:E.
    + intros [= <-]. now exists [], (a :: s).
    + destruct (cls a) eqn:Ha; [|easy]. intros H.
      apply IHs in H as (v & s' & -> & Hv & H). exists (a :: v), s'.
      cbn [forallb]. rewrite Ha, Hv. repeat split.
      rewrite <- H. f_equal. simpl. lia.
Qed.

Lemma take_drop_middle_app {A : Type} (a b c : list A) (i j : nat) :
  i = length a -> j = length a + length b ->
  take (j - i) (drop i (a ++ b ++ c)) = b.
Proof.
  intros -> ->. rewrite drop_app_length.
  replace (length a + length b - length a) with (length b) by lia.
  apply take_app_length.
Qed.

(** X4. A version that is read is a non-empty string of digits and dots,
    and the text holds its declaration: nothing else can reach the URL. *)
Theorem read_version_sound (cmake v : str) :
  read_version cmake = Ok v ->
  v <> [] /\ forallb Re.digit_or_dot v = true
  /\ exists pre post, cmake = pre ++ declaration v ++ post.
Proof.
  unfold read_version.
  destruct (Re.search version_re cmake) as [r|] eqn:S; [|easy].
  intros [= <-]. apply search_inv in S as (pre & -> & M).
  unfold Re.match_ in M.
  destruct (Re.exec version_re 0 (Re.subject r) []) as [m|] eqn:E; [|easy].
  injection M as <-. cbn [Re.subject] in *.
  revert E. generalize (Re.subject r). intros s E.
  unfold version_re, Re.text, Re.group, Re.plus in E.
  rewrite <- !app_assoc in E. cbn [app] in E.
  apply exec_text_inv in E as (s1 & -> & E).
  apply exec_lit_inv in E as (s2 & -> & E).
  rewrite exec_paren in E.
  apply exec_set_inv in E as (c & s3 & -> & Hc & E).
  apply exec_star_inv in E as (w & s4 & -> & Hw & E).
  rewrite exec_paren in E.
  apply exec_lit_inv in E as (s5 & -> & E).
  rewrite <- (app_nil_r (map Re.Lit _)) in E.
  apply exec_text_inv in E as (s6 & -> & E).
  cbn [Re.exec] in E. injection E as <-.
  replace (lit "set(DCMTK_STATIC_VERSION " ++ dquote :: c :: w ++ dquote
             :: lit " CACHE STRING" ++ s6)
    with (declaration (c :: w) ++ s6)
    by (unfold declaration; now rewrite <- !app_assoc).
  replace (length w + 27) with (26 + length (c :: w)) by (cbn [length]; lia).
  rewrite group_declaration. cbn [forallb]. rewrite Hc, Hw.
  repeat split; [easy|]. now exists pre, s6.
Qed.

Lemma read_version_sound_witness :
  lit "3.6.9" <> [] /\ forallb Re.digit_or_dot (lit "3.6.9") = true
  /\ exists pre post,
       lit "# DCMTK" ++ [newline] ++ cmake_decl "3.6.9"
       = pre ++ declaration (lit "3.6.9") ++ post.
Proof.
  apply (read_version_sound (lit "# DCMTK" ++ [newline] ++ cmake_decl "3.6.9")).
  vm_compute. reflexivity.
Defined.


Lemma group_middle (k : nat) (a b c : str) (marks : list nat) :
  nth (2 * k - 2) marks 0 = length a ->
  nth (2 * k - 1) marks 0 = length a + length b ->
  Re.group_ k {| Re.subject := a ++ b ++ c; Re.marks := marks |} = b.
Proof.
  intros H1 H2. unfold Re.group_. cbn [Re.subject Re.marks].
  now apply take_drop_middle_app.
Qed.

(** X5. A line gives an entry only if it is [#define UID_], a name that
    ends with [Storage] and is longer than that, white space, and a
    non-empty uid between double quotes, with no line feed in the name or
    in the uid; whatever follows the closing quote is ignored. *)
Theorem uid_match_sound (line : str) (e : entry) :
  uid_match line = Some e ->
  exists x ws rest,
    x <> [] /\ name e = x ++ lit "Storage"
    /\ forallb Re.dot (name e) = true
    /\ forallb Re.whitespace ws = true
    /\ uid e <> [] /\ forallb Re.dot (uid e) = true
    /\ line = lit "#define UID_" ++ name e ++ ws ++ [dquote] ++ uid e
              ++ [dquote] ++ rest.
Proof.
  unfold uid_match, Re.match_.
  destruct (Re.exec uid_re 0 line []) as [r|] eqn:E; [|easy].
  intros [= <-]. cbn [name uid].
  unfold uid_re, Re.text, Re.group, Re.plus in E.
  rewrite <- !app_assoc in E. cbn [app] in E.
  apply exec_text_inv in E as (s1 & -> & E).
  rewrite exec_paren in E.
  apply exec_set_inv in E as (c & s2 & -> & Hc & E).
  apply exec_star_inv in E as (v & s3 & -> & Hv & E).
  apply exec_text_inv in E as (s4 & -> & E).
  rewrite exec_paren in E.
  apply exec_star_inv in E as (ws & s5 & -> & Hws & E).
  apply exec_lit_inv in E as (s6 & -> & E).
  rewrite exec_paren in E.
  apply exec_set_inv in E as (c2 & s7 & -> & Hc2 & E).
  apply exec_star_inv in E as (u & s8 & -> & Hu & E).
  rewrite exec_paren in E.
  apply exec_lit_inv in E as (s9 & -> & E).
  cbn [Re.exec] in E. injection E as <-.
  match goal with
  | |- context [Re.group_ 1 {| Re.subject := ?s; Re.marks := ?m |}] =>
      assert (G1 : Re.group_ 1 {| Re.subject := s; Re.marks := m |}
                   = (c :: v) ++ lit "Storage");
      [|assert (G2 : Re.group_ 2 {| Re.subject := s; Re.marks := m |} = c2 :: u);
        [|rewrite G1, G2]]
  end.
  - replace (lit "#define UID_" ++ c :: v ++ lit "Storage" ++ ws ++ dquote
               :: c2 :: u ++ dquote :: s9)
      with (lit "#define UID_" ++ ((c :: v) ++ lit "Storage")
              ++ ws ++ dquote :: c2 :: u ++ dquote :: s9)
      by (now rewrite <- !app_assoc).
    apply group_middle.
    + reflexivity.
    + cbn [Nat.mul Nat.add Nat.sub nth]. rewrite length_app.
      cbn [length]. vm_compute (length (lit _)). lia.
  - replace (lit "#define UID_" ++ c :: v ++ lit "Storage" ++ ws ++ dquote
               :: c2 :: u ++ dquote :: s9)
      with ((lit "#define UID_" ++ (c :: v) ++ lit "Storage" ++ ws ++ [dquote])
              ++ (c2 :: u) ++ dquote :: s9)
      by (rewrite <- ?app_assoc; cbn [app]; rewrite <- ?app_assoc; reflexivity).
    apply group_middle.
    + cbn [Nat.mul Nat.add Nat.sub nth].
      repeat (rewrite ?length_app; cbn [length]).
      vm_compute (length (lit _)). lia.
    + cbn [Nat.mul Nat.add Nat.sub nth].
      repeat (rewrite ?length_app; cbn [length]).
      vm_compute (length (lit _)). lia.
  - exists (c :: v), ws, s9. cbn [forallb]. rewrite forallb_app.
    cbn [forallb] in *. rewrite Hc, Hv, Hc2, Hu, Hws.
    repeat split; try easy.
    now rewrite <- !app_assoc.
Qed.

Lemma uid_match_sound_witness :
  exists x ws rest,
    x <> [] /\ lit "CTImageStorage" = x ++ lit "Storage"
    /\ forallb Re.dot (lit "CTImageStorage") = true
    /\ forallb Re.whitespace ws = true
    /\ lit "1.2.840.10008.5.1.4.1.1.2" <> []
    /\ forallb Re.dot (lit "1.2.840.10008.5.1.4.1.1.2") = true
    /\ text_of (define "CTImageStorage" "1.2.840.10008.5.1.4.1.1.2")
       = lit "#define UID_" ++ lit "CTImageStorage" ++ ws ++ [dquote]
         ++ lit "1.2.840.10008.5.1.4.1.1.2" ++ [dquote] ++ rest.
Proof.
  apply (uid_match_sound
           (text_of (define "CTImageStorage" "1.2.840.10008.5.1.4.1.1.2"))
           (ent "CTImageStorage" "1.2.840.10008.5.1.4.1.1.2")).
  vm_compute. reflexivity.
Defined.













(** ** The order of the lines and of the records *)

Section SortedOrder.
Context {A : Type} (key : A -> str).

Lemma str_leb_false (a b : str) :
  str_leb a b = false -> str_leb b a = true.
Proof. destruct (str_leb_total a b); congruence. Qed.

Lemma str_leb_ne (a b : str) :
  a <> b -> str_leb a b = true -> str_leb b a = false.
Proof.
  intros Hne Hab. destruct (str_leb b a) eqn:Hba; [|reflexivity].
  now destruct Hne; apply str_leb_antisym.
Qed.

(** Insertions of elements of different keys commute. *)
Lemma insort_comm (x y : A) (l : list A) :
  key x <> key y ->
  insort key x (insort key y l) = insort key y (insort key x l).
Proof.
  intros Hne. induction l as [|z l IH]; cbn [insort].
  - destruct (str_leb (key x) (key y)) eqn:Exy.
    + now rewrite (str_leb_ne _ _ Hne Exy).
    + now rewrite (str_leb_false _ _ Exy).
  - destruct (str_leb (key y) (key z)) eqn:Eyz,
             (str_leb (key x) (key z)) eqn:Exz; cbn [insort].
    + destruct (str_leb (key x) (key y)) eqn:Exy.
      * now rewrite (str_leb_ne _ _ Hne Exy), Eyz.
      * now rewrite (str_leb_false _ _ Exy), Exz.
    + assert (Exy : str_leb (key x) (key y) = false).
      { destruct (str_leb (key x) (key y)) eqn:Exy; [|reflexivity].
        now rewrite (str_leb_trans _ _ _ Exy Eyz) in Exz. }
      now rewrite Exy, Exz, Eyz.
    + assert (Eyx : str_leb (key y) (key x) = false).
      { destruct (str_leb (key y) (key x)) eqn:Eyx; [|reflexivity].
        now rewrite (str_leb_trans _ _ _ Eyx Exz) in Eyz. }
      now rewrite Exz, Eyx, Eyz.
    + now rewrite Exz, Eyz, IH.
Qed.

(** With keys that are all different, the sorted list does not depend on
    the order of the list that is sorted. *)
Lemma sorted_perm_eq (l l' : list A) :
  Permutation l l' -> NoDup (map key l) -> sorted key l = sorted key l'.
Proof.
  induction 1 as [|x l l' _ IH|x y l|l l' l'' H1 IH1 H2 IH2]; intros Hnd.
  - reflexivity.
  - cbn [sorted foldr map] in *. apply NoDup_cons in Hnd as [_ Hnd].
    fold (sorted key l) (sorted key l'). now rewrite IH.
  - cbn [sorted foldr map] in *. apply insort_comm.
    apply NoDup_cons in Hnd as [Hy _].
    intros Heq. apply Hy. rewrite Heq. constructor.
  - rewrite IH1 by exact Hnd. apply IH2.
    now rewrite <- (Permutation_map key H1).
Qed.
End SortedOrder.

Lemma matched_perm (dcmtk dcmtk' : list bytes) :
  Permutation dcmtk dcmtk' -> Permutation (matched dcmtk) (matched dcmtk').
Proof. intros H. unfold matched. now rewrite H. Qed.

(** X7. When the names matched in the header are all different, the index
    does not depend on the order of the lines of the header: the same
    lines in any order give the same three lists, or the same error. *)
Theorem index_store_scp_order_independent (dcmtk dcmtk' : list bytes) :
  Permutation dcmtk dcmtk' ->
  List.NoDup (map name (matched dcmtk)) ->
  index_store_scp dcmtk = index_store_scp dcmtk'.
Proof.
  intros Hp Hnd.
  destruct (List.Forall_Exists_dec decodable decodable_dec dcmtk) as [H|H].
  - assert (H' : Forall decodable dcmtk') by now rewrite <- Hp.
    rewrite (index_store_scp_ok _ H), (index_store_scp_ok _ H').
    rewrite (longest_name_perm _ _ (matched_perm _ _ Hp)).
    rewrite (sorted_perm_eq name _ _ (matched_perm _ _ Hp)); [reflexivity|].
    now apply NoDup_ListNoDup.
  - assert (H' : Exists (fun l => ~ decodable l) dcmtk') by now rewrite <- Hp.
    unfold index_store_scp. now rewrite !scan_raise.
Qed.

Lemma index_store_scp_order_independent_witness :
  index_store_scp sample_header = index_store_scp sample_header_shuffled.
Proof.
  apply index_store_scp_order_independent.
  - apply Permutation_rev.
  - vm_compute. repeat (constructor; [cbn; intuition discriminate|]). constructor.
Defined.

(** X8. When the UIDs of the records are all different, the list of the
    transfer syntaxes does not depend on the order of the records in the
    file. *)
Theorem transfer_syntaxes_order_independent (a a' : list transfer_syntax) :
  Permutation a a' ->
  List.NoDup (map UID a) ->
  load_transfer_syntaxes a = load_transfer_syntaxes a'.
Proof.
  intros Hp Hnd. rewrite !load_transfer_syntaxes_spec.
  assert (Hm : Permutation (map make_item a) (map make_item a'))
    by now apply Permutation_map.
  rewrite (longest_name_perm _ _ Hm), (sorted_perm_eq uid _ _ Hm); [reflexivity|].
  rewrite map_map. cbn [make_item uid]. now apply NoDup_ListNoDup.
Qed.

Lemma transfer_syntaxes_order_independent_witness :
  load_transfer_syntaxes sample_syntaxes
  = load_transfer_syntaxes sample_syntaxes_shuffled.
Proof.
  apply transfer_syntaxes_order_independent.
  - apply Permutation_rev.
  - vm_compute. repeat (constructor; [cbn; intuition discriminate|]). constructor.
Defined.

Example index_store_scp_same_name :
  index_store_scp [define "CTImageStorage" "1"; define "CTImageStorage" "2"]
  <> index_store_scp [define "CTImageStorage" "2"; define "CTImageStorage" "1"].
Proof. vm_compute. discriminate. Qed.

(** ** The order of the padded names *)

Lemma replicate_leb (b : str) (n m : nat) :
  printable b -> n <= length b + m ->
  str_leb (replicate n space) (b ++ replicate m space) = true.
Proof.
  intros Hb. revert n. induction Hb as [|y b Hy _ IH]; intros n Hn.
  - cbn [app length Nat.add] in *. revert m Hn.
    induction n as [|n IHn]; intros [|m] Hn; try reflexivity; [lia|].
    cbn [replicate str_leb]. rewrite Nat.ltb_irrefl. apply IHn. lia.
  - destruct n as [|n]; [reflexivity|]. cbn [replicate app str_leb].
    change (nat_of_ascii space) with 32.
    destruct (Nat.ltb_spec 32 (nat_of_ascii y)); [reflexivity|].
    destruct (Nat.ltb_spec (nat_of_ascii y) 32); [lia|].
    apply IH. simpl in Hn. lia.
Qed.

(** Padding keeps the order of two names when the greater one has no
    control character. *)
Lemma ljust_leb (a b : str) (w : nat) :
  str_leb a b = true -> printable b ->
  str_leb (ljust a w) (ljust b w) = true.
Proof.
  revert b w. induction a as [|x a IH]; intros b w Hab Hb.
  - unfold ljust. cbn [app length]. apply replicate_leb; [exact Hb | lia].
  - destruct b as [|y b]; [discriminate|].
    unfold ljust in *. cbn [app length str_leb] in *.
    destruct (nat_of_ascii x <? nat_of_ascii y); [reflexivity|].
    destruct (nat_of_ascii y <? nat_of_ascii x); [discriminate|].
    replace (w - S (length a)) with (w - 1 - length a) by lia.
    replace (w - S (length b)) with (w - 1 - length b) by lia.
    apply IH; [exact Hab | now inversion Hb].
Qed.

Lemma sorted_pad (w : nat) (l : list entry) :
  StronglySorted (key_le name) l ->
  Forall (fun e => printable (name e)) l ->
  StronglySorted (key_le name) (map (pad w) l).
Proof.
  induction 1 as [|e l Hl IH He]; intros Hp; cbn [map]; [constructor|].
  inversion Hp as [|? ? Hpe Hpl]; subst.
  constructor; [now apply IH|].
  rewrite List.Forall_map. rewrite List.Forall_forall in *.
  intros e' He'. unfold key_le, str_le. cbn [pad set_name name].
  apply ljust_leb; [now apply He | now apply Hpl].
Qed.

Lemma sorted_filter {A : Type} (R : A -> A -> Prop) (f : A -> bool) (l : list A) :
  StronglySorted R l -> StronglySorted R (List.filter f l).
Proof.
  induction 1 as [|x l Hl IH Hx]; cbn [List.filter]; [constructor|].
  destruct (f x); [|exact IH]. constructor; [exact IH|].
  rewrite List.Forall_forall in *. intros y Hy.
  apply filter_In in Hy as [Hy _]. now apply Hx.
Qed.

Lemma index_store_scp_inv (dcmtk : list bytes) (idx : store_scp_index) :
  index_store_scp dcmtk = Ok idx ->
  Forall decodable dcmtk
  /\ idx = classify (map (pad (longest_name (matched dcmtk)))
                         (sorted name (matched dcmtk))).
Proof.
  intros H.
  destruct (List.Forall_Exists_dec decodable decodable_dec dcmtk) as [Hd|Hd].
  - split; [exact Hd|]. rewrite (index_store_scp_ok _ Hd) in H. congruence.
  - unfold index_store_scp in H. now rewrite scan_raise in H.
Qed.

(** X9. When no matched name has a control character, each list of the
    index is in the order of its names as they are written in the
    statement, with their padding: the padding, which is done after the
    sort, does not disturb the order. *)
Theorem padded_lists_sorted (dcmtk : list bytes) (idx : store_scp_index) :
  index_store_scp dcmtk = Ok idx ->
  Forall (fun e => printable (name e)) (matched dcmtk) ->
  StronglySorted (key_le name) (store_scp idx)
  /\ StronglySorted (key_le name) (draft_store_scp idx)
  /\ StronglySorted (key_le name) (retired_store_scp idx).
Proof.
  intros H Hp. apply index_store_scp_inv in H as [_ ->].
  assert (Hs : StronglySorted (key_le name)
                 (map (pad (longest_name (matched dcmtk)))
                      (sorted name (matched dcmtk)))).
  { apply sorted_pad; [apply sorted_sorted|].
    now rewrite <- (sorted_perm name (matched dcmtk)). }
  unfold classify. cbn [store_scp draft_store_scp retired_store_scp].
  repeat split; now apply sorted_filter.
Qed.

(** A name with a tabulation: the order of the padded names is not that of
    the names. *)
Example padded_lists_not_sorted :
  exists idx,
    index_store_scp
      [ blit "#define UID_AStorage" ++ [x09] ++ blit "Storage " ++ [x22]
        ++ blit "1" ++ [x22; x0a];
        define "AStorage" "2" ] = Ok idx
    /\ ~ StronglySorted (key_le name) (store_scp idx).
Proof.
  eexists. split; [vm_compute; reflexivity|].
  intros H. inversion H as [|? ? _ Hall]; subst.
  inversion Hall as [|? ? Hle _]; subst. vm_compute in Hle. discriminate.
Qed.

Ltac all_printable :=
  vm_compute;
  repeat first [ apply List.Forall_nil | apply List.Forall_cons; [|] ];
  lia.

Lemma padded_lists_sorted_witness :
  exists idx,
    index_store_scp sample_header = Ok idx
    /\ StronglySorted (key_le name) (store_scp idx)
    /\ StronglySorted (key_le name) (draft_store_scp idx)
    /\ StronglySorted (key_le name) (retired_store_scp idx).
Proof.
  eexists. split; [vm_compute; reflexivity|].
  apply (padded_lists_sorted sample_header); [vm_compute; reflexivity|].
  all_printable.
Defined.

(** ** Padding twice *)

Lemma ljust_ljust (s : str) (w1 w2 : nat) :
  ljust (ljust s w1) w2 = ljust s (max w1 w2).
Proof.
  unfold ljust. rewrite <- app_assoc, <- replicate_add. f_equal. f_equal.
  rewrite length_app, length_replicate. lia.
Qed.

(** X10. Padding to a width and then to another is padding to the greater
    of the two: a second padding never shortens or changes a name that is
    wide enough. *)
Theorem pad_names_twice (w1 w2 : nat) (l : list entry) :
  pad_names w2 (pad_names w1 l) = pad_names (max w1 w2) l.
Proof.
  rewrite !pad_names_map, map_map. apply map_ext. intros e.
  unfold pad, set_name. cbn [name uid]. now rewrite ljust_ljust.
Qed.

(** ** A header without Storage UID *)

(** X11. A header all of whose lines are ASCII text that does not match
    the pattern, the empty header among them, gives three empty lists and
    no error. *)
Theorem index_store_scp_no_match (dcmtk : list bytes) :
  Forall (fun l => decodable l /\ uid_match (text_of l) = None) dcmtk ->
  index_store_scp dcmtk
  = Ok {| store_scp := []; retired_store_scp := []; draft_store_scp := [] |}.
Proof.
  intros H.
  assert (Hd : Forall decodable dcmtk)
    by (eapply Forall_impl; [exact H|]; now intros l [Hl _]).
  assert (Hm : matched dcmtk = []).
  { clear Hd. induction H as [|l dcmtk [_ Hl] _ IH]; [reflexivity|].
    now rewrite matched_cons, Hl. }
  now rewrite (index_store_scp_ok _ Hd), Hm.
Qed.

Lemma index_store_scp_no_match_witness :
  index_store_scp
    [ blit "/* dcuid.h */" ++ [x0a];
      define "FINDPatientRootQueryRetrieveInformationModel"
             "1.2.840.10008.5.1.4.1.2.1.1" ]
  = Ok {| store_scp := []; retired_store_scp := []; draft_store_scp := [] |}.
Proof.
  apply index_store_scp_no_match.
  repeat first [ apply List.Forall_nil
               | apply List.Forall_cons; [split; vm_compute; reflexivity|] ].
Defined.

(** ** The dictionary of the template *)

(** The dictionary given to the renderer binds the four names of the
    template to the four lists, and no other name. *)
Lemma make_context_lookup (idx : store_scp_index) (ts : list entry) (k : string) :
  make_context idx ts !! k
  = if decide (k = "store_scp") then Some (store_scp idx)
    else if decide (k = "draft_store_scp") then Some (draft_store_scp idx)
    else if decide (k = "retired_store_scp") then Some (retired_store_scp idx)
    else if decide (k = "transfer_syntaxes") then Some ts
    else None.
Proof.
  unfold make_context.
  repeat (rewrite lookup_insert; case_decide; subst;
          [repeat case_decide; congruence|]).
  rewrite lookup_empty. repeat case_decide; congruence.
Qed.

(** ** The files *)

Section Files.
Variable get : str -> result bytes.
Variable getmembers : bytes -> result (list Tar.TarInfo).
Variable loads : str -> result (list transfer_syntax).
Variable render : str -> gmap string (list entry) -> result str.

Lemma write_statement_cases (context : gmap string (list entry))
  (fs : gmap string str) :
  write_statement render context fs = (fs, Raise FileNotFoundError)
  \/ exists text r, write_statement render context fs = (<[output_path := text]> fs, r).
Proof.
  unfold write_statement. destruct (fs !! template_path); [|now left].
  right. destruct (render _ context) as [text|e].
  - exists text, (Ok ()). now rewrite insert_insert_eq.
  - now exists [], (Raise e).
Qed.

Lemma write_statement_eq (context : gmap string (list entry))
  (fs : gmap string str) :
  write_statement render context fs
  = match fs !! template_path with
    | None => (fs, Raise FileNotFoundError)
    | Some template =>
        match render template context with
        | Ok text => (<[output_path := text]> fs, Ok ())
        | Raise e => (<[output_path := []]> fs, Raise e)
        end
    end.
Proof.
  unfold write_statement. destruct (fs !! template_path) as [template|] eqn:T;
    [|reflexivity].
  rewrite lookup_insert_ne, T by discriminate. cbn [default from_option id].
  destruct (render template context); [|reflexivity].
  now rewrite insert_insert_eq.
Qed.

Lemma read_file_insert_output (fs : gmap string str) (text : str) (path : string) :
  path <> output_path ->
  read_file (<[output_path := text]> fs) path = read_file fs path.
Proof. intros H. unfold read_file. now rewrite lookup_insert_ne. Qed.

Lemma prepare_insert_output (fs : gmap string str) (text : str) :
  prepare get getmembers loads (<[output_path := text]> fs)
  = prepare get getmembers loads fs.
Proof.
  unfold prepare. now rewrite !read_file_insert_output by discriminate.
Qed.

Lemma script_cases (fs : gmap string str) :
  (exists e, script get getmembers loads render fs = (fs, Raise e))
  \/ exists text r,
       script get getmembers loads render fs = (<[output_path := text]> fs, r).
Proof.
  unfold script. destruct (prepare get getmembers loads fs) as [context|e].
  - destruct (write_statement_cases context fs) as [H|H]; [left; eauto | now right].
  - left. eauto.
Qed.

(** X12. The script changes no file but the output file: the CMake file,
    the JSON file, the template and every other file are after the run as
    they were before, whether the run succeeds or raises. *)
Theorem script_other_files (fs : gmap string str) (path : string) :
  path <> output_path ->
  (script get getmembers loads render fs).1 !! path = fs !! path.
Proof.
  intros Hp. destruct (script_cases fs) as [[e ->]|(text & r & ->)];
    [reflexivity|].
  cbn [fst]. now rewrite lookup_insert_ne.
Qed.

(** X13. Running the script again on the files that a run has left, with
    the same answers of the network, gives the same files and the same
    outcome: the output file is not one of the files that the script
    reads. *)
Theorem script_again (fs : gmap string str) :
  script get getmembers loads render (script get getmembers loads render fs).1
  = script get getmembers loads render fs.
Proof.
  unfold script.
  destruct (prepare get getmembers loads fs) as [context|e] eqn:P;
    cbn [fst]; [|now rewrite P].
  rewrite (write_statement_eq context fs).
  destruct (fs !! template_path) as [template|] eqn:T.
  - destruct (render template context) as [text|e] eqn:R; cbn [fst];
      rewrite prepare_insert_output, P, write_statement_eq,
        lookup_insert_ne, T, R, insert_insert_eq by discriminate;
      reflexivity.
  - cbn [fst]. now rewrite P, write_statement_eq, T.
Qed.
End Files.

Lemma script_other_files_witness :
  (script no_network no_archive no_json raising_render files_with_old_statement).1
    !! template_path
  = files_with_old_statement !! template_path.
Proof. apply script_other_files. discriminate. Defined.

Lemma script_without_declaration_witness :
  script no_network no_archive no_json raising_render files_without_declaration
  = (files_without_declaration, Raise AssertionError).
Proof.
  apply (script_without_declaration _ _ _ _ _ (lit "# no version of DCMTK here"));
    vm_compute; reflexivity.
Defined.

(** ** Decoding *)

Lemma ascii_of_byte_code (b : byte) : nat_of_ascii (ascii_of_byte b) = Byte.to_nat b.
Proof. destruct b; reflexivity. Qed.

(** X15. Decoding a line changes no byte: the text has the codes of the
    bytes, all below 128, and encoding it gives the line back; decoding
    raises [UnicodeDecodeError], and nothing else, exactly when the line
    has a byte of code 128 or more. *)
Theorem decode_spec (l : bytes) :
  match decode l with
  | Ok line =>
      map byte_of_ascii line = l
      /\ map nat_of_ascii line = map Byte.to_nat l
      /\ Forall (fun c => nat_of_ascii c < 128) line
  | Raise e =>
      e = UnicodeDecodeError /\ Exists (fun b => 128 <= Byte.to_nat b) l
  end.
Proof.
  unfold decode. destruct (forallb is_ascii l) eqn:E.
  - rewrite forallb_forall in E. repeat split.
    + rewrite map_map. rewrite <- (map_id l) at 2. apply map_ext.
      apply byte_of_ascii_of_byte.
    + rewrite map_map. apply map_ext, ascii_of_byte_code.
    + apply List.Forall_forall. intros c Hc.
      apply in_map_iff in Hc as (b & <- & Hb). rewrite ascii_of_byte_code.
      apply E in Hb. unfold is_ascii in Hb. now apply Nat.ltb_lt in Hb.
  - split; [reflexivity|].
    induction l as [|b l IH]; [discriminate|]. cbn [forallb] in E.
    destruct (is_ascii b) eqn:B.
    + right. now apply IH.
    + left. unfold is_ascii in B. apply Nat.ltb_ge in B. exact B.
Qed.

(** ** The bytes of [dcuid.h] *)

Lemma decodable_concat (ls : list bytes) :
  Forall decodable ls <-> forallb is_ascii (concat ls) = true.
Proof.
  induction ls as [|l ls IH]; cbn [concat]; [easy|].
  rewrite forallb_app, andb_true_iff, <- IH. split.
  - intros H. now inversion H.
  - intros [Hl Hls]. now constructor.
Qed.

(** X16. The extraction from the lines of a file succeeds exactly when
    every byte of the file is ASCII: one byte of code 128 or more anywhere
    in the file, also in a comment, makes it raise [UnicodeDecodeError],
    and it raises nothing else. *)
Theorem index_store_scp_file (b : bytes) :
  match index_store_scp (readlines b) with
  | Ok idx => forallb is_ascii b = true
  | Raise e => e = UnicodeDecodeError /\ forallb is_ascii b = false
  end.
Proof.
  pose proof (decodable_concat (readlines b)) as H.
  unfold readlines in H at 2. rewrite (readlines_from_concat [] b) in H.
  cbn [app] in H.
  destruct (List.Forall_Exists_dec decodable decodable_dec (readlines b)) as [Hd|Hd].
  - rewrite (index_store_scp_ok _ Hd). now apply H.
  - unfold index_store_scp. rewrite scan_raise by exact Hd. cbn [bind].
    split; [reflexivity|]. apply not_true_is_false. intros Hb.
    apply H in Hb. apply Exists_exists in Hd as (l & Hl & Hnd).
    rewrite Forall_forall in Hb. now apply Hnd, Hb.
Qed.
